(** * Random password generator: a shallow embedding of
      [SecurePasswordGenerator] (password_generator.py) and its properties.

    Python strings are modelled as lists of 8-bit characters ([ascii]); every
    alphabet of the generator lies in that range.  The random source
    ([secrets]) is a tape of natural numbers read left to right, one cell per
    call of [randbelow]; the interpreter's recursion limit is the [depth]
    argument of [generate_password]. *)

From Stdlib Require Import ZArith Ascii String Lia DecimalString.
From stdpp Require Import base tactics option list strings gmap.

Open Scope Z_scope.
Open Scope nat_scope.

(** ** Strings *)

Abbreviation str := (list ascii).

Definition lit (s : string) : str := list_ascii_of_string s.

Definition ord (c : ascii) : nat := nat_of_ascii c.

(** ** Exceptions and the random source *)

Inductive exn : Type :=
| ValueError (msg : string)
| IndexError
| RecursionError.

Inductive result (A : Type) : Type :=
| Ok (a : A)
| Raise (e : exn).
Arguments Ok {A} a.
Arguments Raise {A} e.

(** The draws still to come, and how many were consumed. *)
Record rng : Type := Rng { tape : nat -> nat; pos : nat }.

Definition advance (g : rng) : rng := Rng (tape g) (S (pos g)).

(** Computations that read the random source and may raise. *)
Definition M (A : Type) : Type := rng -> result A * rng.

Definition ret {A} (a : A) : M A := fun g => (Ok a, g).

Definition raise {A} (e : exn) : M A := fun g => (Raise e, g).

Definition bind {A B} (m : M A) (k : A -> M B) : M B :=
  fun g =>
    match m g with
    | (Ok a, g') => k a g'
    | (Raise e, g') => (Raise e, g')
    end.

Declare Scope rng_scope.
Delimit Scope rng_scope with rng.
Notation "'let!' x ':=' m 'in' k" := (bind m (fun x => k))
  (at level 10, x name, m at level 200, k at level 200) : rng_scope.
Notation "'let!' ' p ':=' m 'in' k" :=
  (bind m (fun x => match x with p => k end))
  (at level 10, p pattern, m at level 200, k at level 200) : rng_scope.
Open Scope rng_scope.

(** *** Python's [random] and [secrets] modules *)

(** [random._randbelow(n)]: a draw from [range(n)]. *)
Definition randbelow (n : nat) : M nat :=
  fun g => (Ok (tape g (pos g) mod n), advance g).

(** [secrets.choice(seq)]: [seq[randbelow(len(seq))]], [IndexError] on an
    empty sequence. *)
Definition choice (seq : str) : M ascii :=
  match seq with
  | [] => raise IndexError
  | _ :: _ =>
      let! i := randbelow (length seq) in
      match seq !! i with
      | Some c => ret c
      | None => raise IndexError
      end
  end.

(** [x[i], x[j] = x[j], x[i]]; [None] stands for Python's [IndexError]. *)
Definition swap (x : str) (i j : nat) : option str :=
  match x !! j, x !! i with
  | Some xj, Some xi => Some (<[j:=xi]> (<[i:=xj]> x))
  | _, _ => None
  end.

(** [random.shuffle(x)]:
    [for i in reversed(range(1, len(x))): j = randbelow(i + 1); swap]. *)
Fixpoint shuffle_loop (i : nat) (x : str) : M str :=
  match i with
  | 0 => ret x
  | S i' =>
      let! j := randbelow (i + 1) in
      match swap x i j with
      | Some x' => shuffle_loop i' x'
      | None => raise IndexError
      end
  end.

Definition shuffle (x : str) : M str := shuffle_loop (length x - 1) x.

(** ** Character sets ([__init__]) *)

Definition lowercase : str := lit "abcdefghijklmnopqrstuvwxyz".
Definition uppercase : str := lit "ABCDEFGHIJKLMNOPQRSTUVWXYZ".
Definition digits : str := lit "0123456789".
Definition special_chars : str := lit "!@#$%^&*()_+-=[]{}|;:,.<>?".

(** ** The pattern check ([_has_predictable_patterns]) *)

(** The test of the first loop at index [i]; a missing index would be
    Python's [IndexError] and does not occur for [i < len(password) - 2]. *)
Definition sequential_at (password : str) (i : nat) : bool :=
  match password !! i, password !! (i + 1), password !! (i + 2) with
  | Some a, Some b, Some c =>
      (ord b =? ord a + 1) && (ord c =? ord a + 2)
  | _, _, _ => false
  end.

(** [for i in range(len(password) - 2): if ...: return True]. *)
Definition has_sequential (password : str) : bool :=
  existsb (sequential_at password) (seq 0 (length password - 2)).

(** The regular expression [(.)\1{2,}]. The dot matches every character
    but the line feed. *)
Definition newline : ascii := "010"%char.

Definition dot_matches (c : ascii) : bool := negb (Ascii.eqb c newline).

(** Greedy count of the copies of the captured group at the head of [s]. *)
Fixpoint backrefs (group : ascii) (s : str) : nat :=
  match s with
  | c :: s' => if Ascii.eqb c group then S (backrefs group s') else 0
  | [] => 0
  end.

(** A match of the whole expression starting at the head of [s]. *)
Definition match_here (s : str) : bool :=
  match s with
  | c :: s' => dot_matches c && (2 <=? backrefs c s')
  | [] => false
  end.

(** [re.search]: a match starting at some position. *)
Fixpoint re_search_repeated (s : str) : bool :=
  match s with
  | [] => false
  | _ :: s' => match_here s || re_search_repeated s'
  end.

(** [str.lower] on 8-bit characters: A-Z and the upper-case letters of the
    Latin-1 range move 32 places up. *)
Definition lower_char (c : ascii) : ascii :=
  let n := ord c in
  if ((65 <=? n) && (n <=? 90)) ||
     ((192 <=? n) && (n <=? 222) && negb (n =? 215))
  then ascii_of_nat (n + 32)
  else c.

Definition lower (s : str) : str := map lower_char s.

Fixpoint starts_with (pattern s : str) : bool :=
  match pattern, s with
  | [], _ => true
  | _ :: _, [] => false
  | a :: pattern', b :: s' => Ascii.eqb a b && starts_with pattern' s'
  end.

(** [pattern in s]. *)
Fixpoint contains (pattern s : str) : bool :=
  starts_with pattern s ||
  match s with
  | [] => false
  | _ :: s' => contains pattern s'
  end.

Definition common_patterns : list str :=
  [lit "123"; lit "321"; lit "abc"; lit "cba"; lit "qwe"; lit "asd";
   lit "zxc"].

Definition has_predictable_patterns (password : str) : bool :=
  if has_sequential password then true
  else if re_search_repeated password then true
  else
    let password_lower := lower password in
    existsb (fun pattern => contains pattern password_lower) common_patterns.

(** ** Password generation ([generate_password]) *)

(** One [if use_...:] block: the class joins the pool and one of its
    characters, drawn at random, joins the required characters. *)
Definition add_class (use : bool) (alphabet : str) (acc : str * str)
  : M (str * str) :=
  let '(char_pool, required_chars) := acc in
  if use then
    let! c := choice alphabet in
    ret (char_pool ++ alphabet, required_chars ++ [c])
  else ret (char_pool, required_chars).

(** [for _ in range(n): password.append(secrets.choice(char_pool))]. *)
Fixpoint fill (n : nat) (char_pool password : str) : M str :=
  match n with
  | 0 => ret password
  | S n' =>
      let! c := choice char_pool in
      fill n' char_pool (password ++ [c])
  end.

Definition length_message : string :=
  "Password length must be at least 4 characters".
Definition class_message : string :=
  "At least one character type must be selected".
Definition count_message : string := "Count must be at least 1".

(** The four blocks in the order of the source: the pool and the required
    characters of a call. *)
Definition build_pool
    (use_uppercase use_lowercase use_digits use_special : bool)
  : M (str * str) :=
  let char_pool := [] in
  let required_chars := [] in
  let! acc := add_class use_lowercase lowercase
                        (char_pool, required_chars) in
  let! acc := add_class use_uppercase uppercase acc in
  let! acc := add_class use_digits digits acc in
  add_class use_special special_chars acc.

(** The body of [generate_password] up to [final_password]. *)
Definition candidate (length : Z)
    (use_uppercase use_lowercase use_digits use_special : bool) : M str :=
  if (length <? 4)%Z then raise (ValueError length_message)
  else
    let! '(char_pool, required_chars) :=
      build_pool use_uppercase use_lowercase use_digits use_special in
    match char_pool with
    | [] => raise (ValueError class_message)
    | _ :: _ =>
        let password := required_chars in
        let! password :=
          fill (Z.to_nat (length - Z.of_nat (List.length required_chars)))
               char_pool password in
        let! password := shuffle password in
        let final_password := password in
        ret final_password
    end.

(** [generate_password]; [depth] is the number of nested calls the
    interpreter still allows, the next one raising [RecursionError]. *)
Fixpoint generate_password (depth : nat) (length : Z)
    (use_uppercase use_lowercase use_digits use_special : bool) : M str :=
  let! final_password :=
    candidate length use_uppercase use_lowercase use_digits use_special in
  if has_predictable_patterns final_password then
    match depth with
    | 0 => raise RecursionError
    | S depth' =>
        generate_password depth' length use_uppercase use_lowercase
                          use_digits use_special
    end
  else ret final_password.

(** ** Batches ([generate_multiple_passwords]) *)

(** The keyword arguments of a call; a missing one takes its default. *)
Record kwargs : Type := Kwargs {
  kw_length : option Z;
  kw_use_uppercase : option bool;
  kw_use_lowercase : option bool;
  kw_use_digits : option bool;
  kw_use_special : option bool
}.

Definition arg_length (kw : kwargs) : Z := default 12%Z (kw_length kw).
Definition arg_use_uppercase (kw : kwargs) : bool :=
  default true (kw_use_uppercase kw).
Definition arg_use_lowercase (kw : kwargs) : bool :=
  default true (kw_use_lowercase kw).
Definition arg_use_digits (kw : kwargs) : bool :=
  default true (kw_use_digits kw).
Definition arg_use_special (kw : kwargs) : bool :=
  default true (kw_use_special kw).

(** [self.generate_password( **kwargs )]. *)
Definition generate (depth : nat) (kw : kwargs) : M str :=
  generate_password depth (arg_length kw) (arg_use_uppercase kw)
    (arg_use_lowercase kw) (arg_use_digits kw) (arg_use_special kw).

(** [for _ in range(n): passwords.append(self.generate_password(...))]. *)
Fixpoint generate_loop (n depth : nat) (kw : kwargs) (passwords : list str)
  : M (list str) :=
  match n with
  | 0 => ret passwords
  | S n' =>
      let! p := generate depth kw in
      generate_loop n' depth kw (passwords ++ [p])
  end.

Definition generate_multiple_passwords (depth : nat) (count : Z)
    (kw : kwargs) : M (list str) :=
  if (count <? 1)%Z then raise (ValueError count_message)
  else generate_loop (Z.to_nat count) depth kw [].

(** * The rest of the program *)

(** ** The earlier script ([Password Generator.py]) *)

Module Legacy.

(** [string.punctuation]. *)
Definition punctuation : str :=
  lit "!" ++ ["034"%char] ++ lit "#$%&'()*+,-./:;<=>?@[\]^_`{|}~".

Definition no_sets_message : str :=
  lit "No character sets selected. Please choose at least one.".

(** [''.join(random.choice(characters) for _ in range(n))]. *)
Fixpoint join_choices (n : nat) (characters : str) : M str :=
  match n with
  | 0 => ret []
  | S n' =>
      let! c := choice characters in
      let! rest := join_choices n' characters in
      ret (c :: rest)
  end.

Definition generate_password (length : Z)
    (use_uppercase use_lowercase use_digits use_special_chars : bool)
  : M str :=
  let characters := [] in
  let characters :=
    if use_uppercase then characters ++ uppercase else characters in
  let characters :=
    if use_lowercase then characters ++ lowercase else characters in
  let characters :=
    if use_digits then characters ++ digits else characters in
  let characters :=
    if use_special_chars then characters ++ punctuation else characters in
  match characters with
  | [] => ret no_sets_message
  | _ :: _ => join_choices (Z.to_nat length) characters
  end.

End Legacy.

(** ** Output: [display_passwords] and [save_passwords_to_file] *)

(** [print(s)] on the standard output, a stream of characters. *)
Definition print (s : str) (stdout : str) : str := stdout ++ s ++ [newline].

(** [str(i)] for an index. *)
Definition decimal (i : nat) : str :=
  lit (NilEmpty.string_of_uint (Nat.to_uint i)).

(** [f"Password {i}: {password}"]. *)
Definition password_line (i : nat) (password : str) : str :=
  lit "Password " ++ decimal i ++ lit ": " ++ password.

(** [for i, password in enumerate(passwords, i): print(...)]. *)
Fixpoint print_passwords (i : nat) (passwords : list str) (stdout : str)
  : str :=
  match passwords with
  | [] => stdout
  | password :: rest =>
      print_passwords (S i) rest (print (password_line i password) stdout)
  end.

Definition display_passwords (passwords : list str) (stdout : str) : str :=
  let stdout := print ([newline] ++ replicate 50 "="%char) stdout in
  let stdout := print (lit "    GENERATED PASSWORDS") stdout in
  let stdout := print (replicate 50 "="%char) stdout in
  let stdout := print_passwords 1 passwords stdout in
  print (replicate 50 "="%char) stdout.

(** The files by name, and the names [open(name, 'w')] refuses, each with
    the text of its [IOError]. *)
Record disk : Type := Disk {
  files : gmap str str;
  refused : str -> option str
}.

(** [for i, password in enumerate(passwords, i): file.write(...)]. *)
Fixpoint write_passwords (i : nat) (passwords : list str) (file : str)
  : str :=
  match passwords with
  | [] => file
  | password :: rest =>
      write_passwords (S i) rest
        (file ++ password_line i password ++ [newline])
  end.

Definition default_filename : str := lit "generated_passwords.txt".

Definition save_passwords_to_file (passwords : list str)
    (filename : option str) (d : disk) (stdout : str) : disk * str :=
  let filename :=
    match filename with
    | None => default_filename
    | Some name => name
    end in
  match refused d filename with
  | None =>
      let file := [] in
      let file := file ++ lit "Generated Secure Passwords" ++ [newline] in
      let file := file ++ replicate 30 "="%char ++ [newline; newline] in
      let file := write_passwords 1 passwords file in
      (Disk (<[filename := file]> (files d)) (refused d),
       print (lit "Passwords successfully saved to '" ++ filename ++ lit "'")
             stdout)
  | Some e =>
      (d, print (lit "Error saving passwords to file: " ++ e) stdout)
  end.

(** ** Input: [get_user_input] *)

(** The lines still to be read and the output so far. *)
Record console : Type := Console { stdin : list str; stdout : str }.

Inductive answer (A : Type) : Type :=
| Got (a : A)
| EOFError.
Arguments Got {A} a.
Arguments EOFError {A}.

(** [input(prompt)]. *)
Definition input (prompt : str) (c : console) : answer str * console :=
  match stdin c with
  | [] => (EOFError, Console [] (stdout c ++ prompt))
  | line :: rest => (Got line, Console rest (stdout c ++ prompt))
  end.

(** The characters [str.strip] removes. *)
Definition is_space (c : ascii) : bool :=
  let n := ord c in
  ((9 <=? n) && (n <=? 13)) || ((28 <=? n) && (n <=? 32)) ||
  (n =? 133) || (n =? 160).

Fixpoint lstrip (s : str) : str :=
  match s with
  | c :: s' => if is_space c then lstrip s' else s
  | [] => []
  end.

Definition strip (s : str) : str := rev (lstrip (rev (lstrip s))).

(** The dictionary [get_user_input] returns. *)
Record preferences : Type := Preferences {
  pref_length : Z;
  pref_use_uppercase : bool;
  pref_use_lowercase : bool;
  pref_use_digits : bool;
  pref_use_special : bool;
  pref_count : Z;
  pref_save_to_file : bool;
  pref_filename : option str
}.

Section Console.

(** Python's [int] on a string; [None] is its [ValueError]. *)
Variable int : str -> option Z.

(** The first [while True] loop, along the lines of the input. *)
Fixpoint ask_length (lines : list str) (out : str) : answer Z * console :=
  let out := out ++ lit "Enter password length (minimum 4): " in
  match lines with
  | [] => (EOFError, Console [] out)
  | line :: rest =>
      match int line with
      | Some length =>
          if (4 <=? length)%Z then (Got length, Console rest out)
          else
            ask_length rest
              (print (lit "Password length must be at least 4 characters.")
                     out)
      | None => ask_length rest (print (lit "Please enter a valid number.") out)
      end
  end.

(** The second [while True] loop. *)
Fixpoint ask_count (lines : list str) (out : str) : answer Z * console :=
  let out := out ++ lit "How many passwords to generate? (default 1): " in
  match lines with
  | [] => (EOFError, Console [] out)
  | line :: rest =>
      match int (match line with [] => lit "1" | _ :: _ => line end) with
      | Some count =>
          if (1 <=? count)%Z then (Got count, Console rest out)
          else
            ask_count rest
              (print (lit "Number of passwords must be at least 1.") out)
      | None => ask_count rest (print (lit "Please enter a valid number.") out)
      end
  end.

(** [input(prompt).lower() != 'n']. *)
Definition ask_unless_n (prompt : str) (c : console) : answer bool * console :=
  match input prompt c with
  | (Got line, c') => (Got (negb (bool_decide (lower line = lit "n"))), c')
  | (EOFError, c') => (EOFError, c')
  end.

Definition get_user_input (c : console) : answer preferences * console :=
  let out := print (replicate 50 "="%char) (stdout c) in
  let out := print (lit "    SECURE RANDOM PASSWORD GENERATOR") out in
  let out := print (replicate 50 "="%char) out in
  match ask_length (stdin c) out with
  | (EOFError, c) => (EOFError, c)
  | (Got length, c) =>
  let c :=
    Console (stdin c)
      (print ([newline] ++ lit "Select character types to include:")
             (stdout c)) in
  match ask_unless_n (lit "Include uppercase letters? (Y/n): ") c with
  | (EOFError, c) => (EOFError, c)
  | (Got use_uppercase, c) =>
  match ask_unless_n (lit "Include lowercase letters? (Y/n): ") c with
  | (EOFError, c) => (EOFError, c)
  | (Got use_lowercase, c) =>
  match ask_unless_n (lit "Include numbers? (Y/n): ") c with
  | (EOFError, c) => (EOFError, c)
  | (Got use_digits, c) =>
  match ask_unless_n (lit "Include special characters? (Y/n): ") c with
  | (EOFError, c) => (EOFError, c)
  | (Got use_special, c) =>
  let '(use_uppercase, use_lowercase, use_digits, use_special, c) :=
    if use_uppercase || use_lowercase || use_digits || use_special
    then (use_uppercase, use_lowercase, use_digits, use_special, c)
    else
      (true, true, true, true,
       Console (stdin c)
         (print
            (lit
               "At least one character type must be selected. Using all types.")
            (stdout c))) in
  match ask_count (stdin c) (stdout c) with
  | (EOFError, c) => (EOFError, c)
  | (Got count, c) =>
  match input (lit "Save passwords to file? (y/N): ") c with
  | (EOFError, c) => (EOFError, c)
  | (Got line, c) =>
  let save_to_file := bool_decide (lower line = lit "y") in
  if save_to_file then
    match
      input
        (lit "Enter filename (press Enter for 'generated_passwords.txt'): ") c
    with
    | (EOFError, c) => (EOFError, c)
    | (Got line, c) =>
        let filename := strip line in
        let filename :=
          match filename with
          | [] => default_filename
          | _ :: _ => filename
          end in
        (Got (Preferences length use_uppercase use_lowercase use_digits
                use_special count save_to_file (Some filename)), c)
    end
  else
    (Got (Preferences length use_uppercase use_lowercase use_digits
            use_special count save_to_file None), c)
  end end end end end end end.

End Console.

(** The keyword arguments [main] builds from the preferences. *)
Definition main_kwargs (prefs : preferences) : kwargs :=
  Kwargs (Some (pref_length prefs)) (Some (pref_use_uppercase prefs))
         (Some (pref_use_lowercase prefs)) (Some (pref_use_digits prefs))
         (Some (pref_use_special prefs)).

(** A reading of [int] on strings of decimal digits, for the samples. *)
Definition digits_int (s : str) : option Z :=
  option_map Z.of_uint (NilZero.uint_of_string (string_of_list_ascii s)).

(** * Vocabulary of the statements *)

(** ** Requests *)

(** The alphabets of the selected classes, in the order the pool is built. *)
Definition selected (kw : kwargs) : list str :=
  (if arg_use_lowercase kw then [lowercase] else []) ++
  (if arg_use_uppercase kw then [uppercase] else []) ++
  (if arg_use_digits kw then [digits] else []) ++
  (if arg_use_special kw then [special_chars] else []).

Definition pool (kw : kwargs) : str := concat (selected kw).

Definition any_class (kw : kwargs) : bool :=
  arg_use_uppercase kw || arg_use_lowercase kw ||
  arg_use_digits kw || arg_use_special kw.

Definition valid (kw : kwargs) : Prop :=
  (4 <= arg_length kw)%Z /\ any_class kw = true.

Definition disjoint (a b : str) : Prop := forall c, c ∈ a -> c ∈ b -> False.

(** ** Candidates *)

(** The state of the two accumulators after the blocks of [classes]: the
    pool is their concatenation and the required characters hold one
    character of each, in order. *)
Definition built (classes : list str) (acc : str * str) : Prop :=
  fst acc = concat classes /\
  Forall2 (fun (c : ascii) (cls : str) => c ∈ cls) (snd acc) classes.

(** What a candidate owes to its request. *)
Record good (kw : kwargs) (p : str) : Prop := Good {
  good_length : Z.of_nat (length p) = arg_length kw;
  good_alphabet : Forall (fun c => c ∈ pool kw) p;
  good_classes : forall cls, cls ∈ selected kw ->
                             exists c, c ∈ p /\ c ∈ cls
}.

(** A selected class has one of its characters in the password. *)
Definition represented (use : bool) (alphabet p : str) : Prop :=
  use = true -> exists c, c ∈ p /\ c ∈ alphabet.

(** ** Runs *)

(** The source after [n] more draws. *)
Definition skip (n : nat) (g : rng) : rng := Rng (tape g) (n + pos g).

(** [g'] reads the same tape as [g], further on. *)
Definition further (g g' : rng) : Prop :=
  tape g' = tape g /\ pos g < pos g'.

(** The body of [generate_password] at the arguments of a call. *)
Definition attempt (kw : kwargs) : M str :=
  candidate (arg_length kw) (arg_use_uppercase kw) (arg_use_lowercase kw)
            (arg_use_digits kw) (arg_use_special kw).

(** The source after the first [k] attempts of a call. *)
Fixpoint after (k : nat) (kw : kwargs) (g : rng) : rng :=
  match k with
  | 0 => g
  | S k' => after k' kw (snd (attempt kw g))
  end.

(** The candidate of attempt number [k] (from 0) fails the pattern check. *)
Definition rejected (kw : kwargs) (g : rng) (k : nat) : bool :=
  match fst (attempt kw (after k kw g)) with
  | Ok p => has_predictable_patterns p
  | Raise _ => false
  end.

(** The call gave up: the recursion limit was hit after [depth + 1]
    candidates, every one of them rejected. *)
Definition exhausted (depth : nat) (kw : kwargs) (g : rng) : Prop :=
  fst (generate depth kw g) = Raise RecursionError /\
  forall k, k <= depth -> rejected kw g k = true.

(** Successive calls of [generate_password] that all return: each starts
    reading the tape where the one before stopped. *)
Inductive calls (depth : nat) (kw : kwargs) : rng -> list str -> rng -> Prop :=
| calls_done g : calls depth kw g [] g
| calls_next g p g1 ps g2 :
    generate depth kw g = (Ok p, g1) ->
    further g g1 ->
    calls depth kw g1 ps g2 ->
    calls depth kw g (p :: ps) g2.

Definition raises_ValueError {A} (r : result A) : Prop :=
  exists msg, r = Raise (ValueError msg).

(** ** The clauses of the pattern check *)

(** Three successive characters with codes [n], [n + 1], [n + 2]. *)
Definition ascending_run (p : str) : Prop :=
  exists i a b c,
    p !! i = Some a /\ p !! (i + 1) = Some b /\ p !! (i + 2) = Some c /\
    ord b = ord a + 1 /\ ord c = ord a + 2.

(** The character [c] three times in a row. *)
Definition run_of (c : ascii) (p : str) : Prop :=
  exists i, p !! i = Some c /\ p !! (i + 1) = Some c /\ p !! (i + 2) = Some c.

Definition repeated_run (p : str) : Prop := exists c, run_of c p.

Definition substring (pattern s : str) : Prop :=
  exists front back, s = front ++ pattern ++ back.

Definition denylisted (p : str) : Prop :=
  exists pattern, pattern ∈ common_patterns /\ substring pattern (lower p).

(** The pattern check in the words of the specification: an ascending run,
    a repeated run or a denylisted substring. *)
Definition spec_predictable (p : str) : Prop :=
  ascending_run p \/ repeated_run p \/ denylisted p.

(** ** Sample tapes and requests *)

Definition zeros : rng := Rng (fun _ => 0) 0.
Definition ramp : rng := Rng (fun i => 7 * i + 3) 0.

Definition all_defaults : kwargs := Kwargs None None None None None.
Definition short_request : kwargs := Kwargs (Some 3%Z) None None None None.
Definition only_digits (n : Z) : kwargs :=
  Kwargs (Some n) (Some false) (Some false) (Some true) (Some false).
Definition no_class (n : Z) : kwargs :=
  Kwargs (Some n) (Some false) (Some false) (Some false) (Some false).

(** ** The rest of the program *)

(** The pool of the earlier script, in the order it is built. *)
Definition legacy_characters
    (use_uppercase use_lowercase use_digits use_special_chars : bool) : str :=
  (if use_uppercase then uppercase else []) ++
  (if use_lowercase then lowercase else []) ++
  (if use_digits then digits else []) ++
  (if use_special_chars then Legacy.punctuation else []).

(** The numbered lines of a list of passwords, each with its line feed. *)
Definition listing_from (i : nat) (passwords : list str) : str :=
  concat (imap (fun k password => password_line (i + k) password ++ [newline])
               passwords).

Definition listing (passwords : list str) : str := listing_from 1 passwords.

(** The head of a saved file. *)
Definition file_header : str :=
  lit "Generated Secure Passwords" ++ [newline] ++
  replicate 30 "="%char ++ [newline; newline].

(** The head and the foot of the list on the screen. *)
Definition display_header : str :=
  [newline] ++ replicate 50 "="%char ++ [newline] ++
  lit "    GENERATED PASSWORDS" ++ [newline] ++
  replicate 50 "="%char ++ [newline].

Definition display_footer : str := replicate 50 "="%char ++ [newline].

(** A disk with no file, where every file opens. *)
Definition empty_disk : disk := Disk ∅ (fun _ => None).

(** The three lines [get_user_input] prints first. *)
Definition banner (out : str) : str :=
  print (replicate 50 "="%char)
    (print (lit "    SECURE RANDOM PASSWORD GENERATOR")
       (print (replicate 50 "="%char) out)).

(** Two runs with the same answer and the same lines left to read. *)
Definition reads_alike {A} (x y : answer A * console) : Prop :=
  fst x = fst y /\ stdin (snd x) = stdin (snd y).

(** A sample session: two rejected lengths, every class declined, the
    default count, a file name between spaces, and a line left over. *)
Definition sample_console : console :=
  Console
    (map lit ["abc"; "3"; "12"; "n"; "N"; "n"; "n"; ""; "Y"; "  out.txt ";
              "more"]%string)
    [].

Definition sample_preferences : preferences :=
  Preferences 12 true true true true 1 true (Some (lit "out.txt")).

(** An answer to the length prompt that makes it ask again. *)
Definition rejected_length (int : str -> option Z) (line : str) : Prop :=
  match int line with
  | Some n => (n < 4)%Z
  | None => True
  end.

(** * Properties *)

Ltac conjuncts := repeat match goal with |- _ /\ _ => split end.

(** ** The samples of the specification *)

Example spec_sample_1 : has_predictable_patterns (lit "abc123XY") = true.
Proof. reflexivity. Qed.
Example spec_sample_2 : has_predictable_patterns (lit "aaaZZZ11") = true.
Proof. reflexivity. Qed.
Example spec_sample_3 : has_predictable_patterns (lit "kP9#mQ2$") = false.
Proof. reflexivity. Qed.

(** ** The monad *)

Section Monad_facts.
Context {A B : Type}.
Implicit Types (m : M A) (k : A -> M B).

Lemma bind_Ok m k g a g1 : m g = (Ok a, g1) -> bind m k g = k a g1.
Proof. intros E. unfold bind. now rewrite E. Qed.

Lemma bind_Raise m k g e g1 :
  m g = (Raise e, g1) -> bind m k g = (Raise e, g1).
Proof. intros E. unfold bind. now rewrite E. Qed.

End Monad_facts.

Lemma skip_0 g : skip 0 g = g.
Proof. now destruct g. Qed.

Lemma skip_skip n m g : skip n (skip m g) = skip (n + m) g.
Proof. unfold skip. simpl. f_equal. lia. Qed.

Lemma advance_skip g : advance g = skip 1 g.
Proof. reflexivity. Qed.

(** ** Draws *)

Lemma choice_total (seq : str) g :
  seq <> [] -> exists c, choice seq g = (Ok c, skip 1 g) /\ c ∈ seq.
Proof.
  intros Hne. destruct seq as [|a seq]; [congruence|].
  unfold choice, bind, randbelow.
  set (i := tape g (pos g) mod length (a :: seq)).
  assert (Hi : i < length (a :: seq)).
  { apply Nat.mod_upper_bound. simpl. lia. }
  destruct (lookup_lt_is_Some_2 _ _ Hi) as [c Hc].
  exists c. rewrite Hc. split; [reflexivity|].
  eapply list_elem_of_lookup_2, Hc.
Qed.

Lemma swap_in_range (x : str) i j :
  i < length x -> j < length x ->
  exists x', swap x i j = Some x' /\ x' ≡ₚ x.
Proof.
  intros Hi Hj.
  destruct (lookup_lt_is_Some_2 _ _ Hi) as [xi Ei].
  destruct (lookup_lt_is_Some_2 _ _ Hj) as [xj Ej].
  unfold swap. rewrite Ei, Ej. eexists. split; [reflexivity|].
  now apply Permutation_insert_swap.
Qed.

Lemma shuffle_loop_total i (x : str) g :
  i < length x \/ i = 0 ->
  exists x', shuffle_loop i x g = (Ok x', skip i g) /\ x' ≡ₚ x.
Proof.
  revert x g. induction i as [|i IH]; intros x g Hi.
  - exists x. simpl. unfold ret. now rewrite skip_0.
  - destruct Hi as [Hi|]; [|lia].
    cbn [shuffle_loop]. unfold bind, randbelow.
    set (j := tape g (pos g) mod (S i + 1)).
    assert (Hj : j < S i + 1) by (apply Nat.mod_upper_bound; lia).
    destruct (swap_in_range x (S i) j) as (x1 & E1 & P1); [lia..|].
    rewrite E1.
    destruct (IH x1 (advance g)) as (x' & E2 & P2).
    { left. apply Permutation_length in P1. lia. }
    exists x'. rewrite E2, advance_skip, skip_skip.
    split; [do 2 f_equal; lia | now rewrite P2].
Qed.

Lemma shuffle_total (x : str) g :
  exists x', shuffle x g = (Ok x', skip (length x - 1) g) /\ x' ≡ₚ x.
Proof.
  apply shuffle_loop_total. destruct x; simpl; [now right | left; lia].
Qed.

Lemma fill_total n (char_pool password : str) g :
  char_pool <> [] ->
  exists extra,
    fill n char_pool password g = (Ok (password ++ extra), skip n g) /\
    length extra = n /\ Forall (fun c => c ∈ char_pool) extra.
Proof.
  intros Hne. revert password g.
  induction n as [|n IH]; intros password g.
  - exists []. simpl. unfold ret. now rewrite app_nil_r, skip_0.
  - destruct (choice_total char_pool g Hne) as (c & Ec & Hc).
    destruct (IH (password ++ [c]) (skip 1 g)) as (extra & E & Hl & Hall).
    exists (c :: extra). cbn [fill]. rewrite (bind_Ok _ _ _ _ _ Ec), E.
    rewrite <- app_assoc, skip_skip. simpl.
    repeat split; [do 2 f_equal; lia | lia | now constructor].
Qed.

(** ** One candidate *)

Lemma add_class_total use alphabet classes acc g :
  alphabet <> [] -> built classes acc ->
  exists acc',
    add_class use alphabet acc g = (Ok acc', skip (if use then 1 else 0) g) /\
    built (classes ++ (if use then [alphabet] else [])) acc'.
Proof.
  intros Hne [Hpool Hreq]. destruct acc as [char_pool required_chars].
  simpl in Hpool, Hreq. subst char_pool. destruct use; simpl.
  - destruct (choice_total alphabet g Hne) as (c & Ec & Hc).
    eexists. rewrite (bind_Ok _ _ _ _ _ Ec). split; [reflexivity|].
    split; simpl.
    + now rewrite concat_app, (concat_cons alphabet), concat_nil, app_nil_r.
    + apply Forall2_app; [assumption | now repeat constructor].
  - exists (concat classes, required_chars). unfold ret.
    rewrite skip_0, app_nil_r. now split.
Qed.

Lemma required_in_pool (required_chars : str) classes :
  Forall2 (fun (c : ascii) (cls : str) => c ∈ cls) required_chars classes ->
  Forall (fun c => c ∈ concat classes) required_chars.
Proof.
  induction 1 as [|c cls rc clss Hc _ IH]; constructor.
  - rewrite concat_cons. apply elem_of_app. now left.
  - eapply Forall_impl; [exact IH|]. intros d Hd.
    rewrite concat_cons. apply elem_of_app. now right.
Qed.

Lemma required_covers (required_chars : str) classes cls :
  Forall2 (fun (c : ascii) (cls : str) => c ∈ cls) required_chars classes ->
  cls ∈ classes -> exists c, c ∈ required_chars /\ c ∈ cls.
Proof.
  induction 1 as [|c cls0 rc clss Hc _ IH]; intros Hin.
  - inversion Hin.
  - apply elem_of_cons in Hin as [->|Hin].
    + exists c. split; [apply elem_of_cons; now left | assumption].
    + destruct (IH Hin) as (d & Hd & Hd'). exists d.
      split; [apply elem_of_cons; now right | assumption].
Qed.

Lemma selected_at_most_4 kw : length (selected kw) <= 4.
Proof.
  unfold selected.
  destruct (arg_use_lowercase kw), (arg_use_uppercase kw),
    (arg_use_digits kw), (arg_use_special kw); simpl; lia.
Qed.

Lemma pool_nonempty kw : any_class kw = true -> pool kw <> [].
Proof.
  unfold any_class, pool, selected.
  destruct (arg_use_lowercase kw), (arg_use_uppercase kw),
    (arg_use_digits kw), (arg_use_special kw); simpl; intros H;
    discriminate.
Qed.

Lemma pool_empty kw : any_class kw = false -> pool kw = [].
Proof.
  unfold any_class, pool, selected.
  destruct (arg_use_lowercase kw), (arg_use_uppercase kw),
    (arg_use_digits kw), (arg_use_special kw); simpl; intros H;
    (discriminate || reflexivity).
Qed.

(** The four blocks, whatever the request. *)
Lemma build_pool_total kw g :
  exists acc,
    build_pool (arg_use_uppercase kw) (arg_use_lowercase kw)
               (arg_use_digits kw) (arg_use_special kw) g
    = (Ok acc, skip (length (selected kw)) g) /\
    built (selected kw) acc.
Proof.
  destruct (add_class_total (arg_use_lowercase kw) lowercase [] ([], []) g)
    as (a1 & E1 & B1); [discriminate | now split; [|constructor] |].
  set (g1 := skip _ g) in E1.
  destruct (add_class_total (arg_use_uppercase kw) uppercase _ a1 g1
              ltac:(discriminate) B1) as (a2 & E2 & B2).
  set (g2 := skip _ g1) in E2.
  destruct (add_class_total (arg_use_digits kw) digits _ a2 g2
              ltac:(discriminate) B2) as (a3 & E3 & B3).
  set (g3 := skip _ g2) in E3.
  destruct (add_class_total (arg_use_special kw) special_chars _ a3 g3
              ltac:(discriminate) B3) as (a4 & E4 & B4).
  subst g1 g2 g3.
  exists a4. unfold build_pool.
  rewrite (bind_Ok _ _ _ _ _ E1), (bind_Ok _ _ _ _ _ E2),
    (bind_Ok _ _ _ _ _ E3), E4, !skip_skip.
  split.
  - do 2 f_equal. unfold selected.
    destruct (arg_use_lowercase kw), (arg_use_uppercase kw),
      (arg_use_digits kw), (arg_use_special kw); reflexivity.
  - unfold selected. simpl in B4. now rewrite <- !app_assoc in B4.
Qed.

Lemma attempt_invalid_length kw g :
  (arg_length kw < 4)%Z ->
  attempt kw g = (Raise (ValueError length_message), g).
Proof.
  intros H. unfold attempt, candidate.
  now rewrite (proj2 (Z.ltb_lt _ _) H).
Qed.

Lemma attempt_no_class kw g :
  (4 <= arg_length kw)%Z -> any_class kw = false ->
  attempt kw g = (Raise (ValueError class_message), g).
Proof.
  intros H Hnone. unfold attempt, candidate.
  rewrite (proj2 (Z.ltb_ge _ _) H).
  destruct (build_pool_total kw g) as ([cp rc] & E & Hcp & Hrc).
  rewrite (bind_Ok _ _ _ _ _ E). simpl in Hcp, Hrc.
  fold (pool kw) in Hcp. rewrite (pool_empty kw Hnone) in Hcp. subst cp.
  assert (Hsel : selected kw = []).
  { unfold any_class in Hnone. unfold selected.
    destruct (arg_use_lowercase kw), (arg_use_uppercase kw),
      (arg_use_digits kw), (arg_use_special kw);
      (discriminate || reflexivity). }
  rewrite Hsel. simpl. unfold raise. now rewrite skip_0.
Qed.

(** A valid request always gets its candidate, after a positive number of
    draws. *)
Lemma attempt_valid kw g :
  valid kw ->
  exists p n, attempt kw g = (Ok p, skip n g) /\ 0 < n /\ good kw p.
Proof.
  intros [Hlen Hany]. unfold attempt, candidate.
  rewrite (proj2 (Z.ltb_ge _ _) Hlen).
  destruct (build_pool_total kw g) as ([cp rc] & E & Hcp & Hrc).
  rewrite (bind_Ok _ _ _ _ _ E). simpl in Hcp, Hrc.
  fold (pool kw) in Hcp.
  pose proof (pool_nonempty kw Hany) as Hne. rewrite <- Hcp in Hne.
  destruct cp as [|c0 cp0]; [congruence|]. set (cp := c0 :: cp0) in *.
  pose proof (selected_at_most_4 kw) as H4.
  pose proof (Forall2_length _ _ _ Hrc) as Hrl.
  set (g1 := skip _ g).
  destruct (fill_total
              (Z.to_nat (arg_length kw - Z.of_nat (length rc))) cp rc g1 Hne)
    as (extra & Ef & Hel & Hall).
  set (g2 := skip _ g1) in Ef.
  destruct (shuffle_total (rc ++ extra) g2) as (p & Es & Hperm).
  cbv iota. fold cp. rewrite (bind_Ok _ _ _ _ _ Ef), (bind_Ok _ _ _ _ _ Es).
  assert (Hpl : length p = Z.to_nat (arg_length kw)).
  { rewrite (Permutation_length Hperm), length_app, Hel. lia. }
  exists p. eexists. unfold ret. subst g1 g2. rewrite !skip_skip.
  split; [reflexivity|]. split.
  - rewrite length_app, Hel. lia.
  - split.
    + lia.
    + rewrite Hperm. apply Forall_app. split.
      * now apply required_in_pool.
      * now rewrite <- Hcp.
    + intros cls Hcls.
      destruct (required_covers rc (selected kw) cls Hrc Hcls)
        as (c & Hc & Hc').
      exists c. split; [|assumption].
      rewrite Hperm. apply elem_of_app. now left.
Qed.

(** ** The retry recursion *)

Lemma generate_unfold depth kw g :
  generate depth kw g =
  match attempt kw g with
  | (Ok p, g1) =>
      if has_predictable_patterns p then
        match depth with
        | 0 => (Raise RecursionError, g1)
        | S depth' => generate depth' kw g1
        end
      else (Ok p, g1)
  | (Raise e, g1) => (Raise e, g1)
  end.
Proof.
  unfold generate, attempt.
  destruct depth; cbn [generate_password]; unfold bind;
    destruct (candidate _ _ _ _ _ g) as [[p|e] g1]; try reflexivity;
    destruct (has_predictable_patterns p); reflexivity.
Qed.

Lemma after_skip kw g k :
  valid kw -> exists n, after k kw g = skip n g /\ k <= n.
Proof.
  intros Hv. revert g. induction k as [|k IH]; intros g.
  - exists 0. now rewrite skip_0.
  - destruct (attempt_valid kw g Hv) as (p & n & E & Hn & _).
    cbn [after]. rewrite E. cbn [snd].
    destruct (IH (skip n g)) as (m & Em & Hm).
    exists (m + n). rewrite Em, skip_skip. split; [reflexivity | lia].
Qed.

(** Every run of a valid call: the first candidate that passes the check is
    returned, and the recursion limit is hit when none of the first
    [depth + 1] passes. *)
Lemma generate_outcome kw :
  valid kw ->
  forall depth g,
    (exists k p,
        k <= depth /\
        (forall i, i < k -> rejected kw g i = true) /\
        rejected kw g k = false /\
        fst (attempt kw (after k kw g)) = Ok p /\
        generate depth kw g = (Ok p, after (S k) kw g) /\
        good kw p /\ has_predictable_patterns p = false) \/
    ((forall k, k <= depth -> rejected kw g k = true) /\
     generate depth kw g = (Raise RecursionError, after (S depth) kw g)).
Proof.
  intros Hv. induction depth as [|depth IH]; intros g;
    destruct (attempt_valid kw g Hv) as (p & n & E & Hn & Hgood);
    rewrite generate_unfold, E;
    destruct (has_predictable_patterns p) eqn:Hp.
  - right. split; [|cbn [after]; now rewrite E].
    intros k Hk. assert (k = 0) as -> by lia.
    unfold rejected. cbn [after]. now rewrite E.
  - left. exists 0, p. unfold rejected. cbn [after]. rewrite E. cbn [fst snd].
    conjuncts; try assumption; try reflexivity; try lia.
  - destruct (IH (skip n g)) as
      [(k & q & Hk & Hrej & Hpass & Eq & Egen & Hq & Hnp) | [Hall Egen]].
    + left. exists (S k), q. unfold rejected in *. cbn [after].
      rewrite E. cbn [snd]. conjuncts; try assumption; try reflexivity; try lia.
      intros [|i] Hi; cbn [after]; rewrite E; cbn [fst snd];
        [assumption | apply Hrej; lia].
    + right. split; [|cbn [after]; now rewrite E].
      intros [|k] Hk; unfold rejected; cbn [after]; rewrite E; cbn [fst snd];
        [assumption | apply Hall; lia].
  - left. exists 0, p. unfold rejected. cbn [after]. rewrite E. cbn [fst snd].
    conjuncts; try assumption; try reflexivity; try lia.
Qed.

Lemma generate_invalid_length depth kw g :
  (arg_length kw < 4)%Z ->
  generate depth kw g = (Raise (ValueError length_message), g).
Proof.
  intros H. now rewrite generate_unfold, (attempt_invalid_length kw g H).
Qed.

Lemma generate_no_class depth kw g :
  (4 <= arg_length kw)%Z -> any_class kw = false ->
  generate depth kw g = (Raise (ValueError class_message), g).
Proof.
  intros H Hn. now rewrite generate_unfold, (attempt_no_class kw g H Hn).
Qed.

(** A valid call ends in a password or in [RecursionError]. *)
Lemma generate_valid_cases depth kw g :
  valid kw ->
  (exists p g', generate depth kw g = (Ok p, g') /\
                good kw p /\ has_predictable_patterns p = false) \/
  exhausted depth kw g.
Proof.
  intros Hv.
  destruct (generate_outcome kw Hv depth g) as
    [(k & p & _ & _ & _ & _ & E & Hg & Hp) | [Hall E]].
  - left. eauto.
  - right. split; [now rewrite E | assumption].
Qed.

(** ** Results of [generate_password] *)

(** C1: a call of [generate_password] with a valid request (length at least
    4, a class selected) returns a password of exactly the requested length
    whose characters all lie in the pool of the selected classes; the only
    other way out of the call is the recursion limit, after nothing but
    rejected candidates. *)
Theorem generate_length_and_alphabet depth kw g :
  valid kw ->
  (exists p g',
      generate depth kw g = (Ok p, g') /\
      Z.of_nat (length p) = arg_length kw /\
      Forall (fun c => c ∈ pool kw) p) \/
  exhausted depth kw g.
Proof.
  intros Hv.
  destruct (generate_valid_cases depth kw g Hv)
    as [(p & g' & E & [Hl Ha _] & _) | Hx]; [left | now right].
  exists p, g'. auto.
Qed.

Lemma generate_length_and_alphabet_witness :
  exists p g',
    generate 5 all_defaults ramp = (Ok p, g') /\
    Z.of_nat (length p) = arg_length all_defaults /\
    Forall (fun c => c ∈ pool all_defaults) p.
Proof.
  destruct (generate_length_and_alphabet 5 all_defaults ramp) as [H | [H _]].
  - split; [vm_compute; discriminate | reflexivity].
  - exact H.
  - vm_compute in H. discriminate H.
Defined.

Lemma selected_lowercase kw :
  arg_use_lowercase kw = true -> lowercase ∈ selected kw.
Proof. unfold selected. intros ->. apply elem_of_app. left. constructor. Qed.

Lemma selected_uppercase kw :
  arg_use_uppercase kw = true -> uppercase ∈ selected kw.
Proof.
  unfold selected. intros ->. rewrite !elem_of_app. right. left. constructor.
Qed.

Lemma selected_digits kw :
  arg_use_digits kw = true -> digits ∈ selected kw.
Proof.
  unfold selected. intros ->. rewrite !elem_of_app. right. right. left.
  constructor.
Qed.

Lemma selected_special kw :
  arg_use_special kw = true -> special_chars ∈ selected kw.
Proof.
  unfold selected. intros ->. rewrite !elem_of_app. right. right. right.
  constructor.
Qed.

(** C2: the password a valid call returns holds, for every selected class,
    at least one character of that class's alphabet. *)
Theorem generate_represents_classes depth kw g :
  valid kw ->
  (exists p g',
      generate depth kw g = (Ok p, g') /\
      represented (arg_use_lowercase kw) lowercase p /\
      represented (arg_use_uppercase kw) uppercase p /\
      represented (arg_use_digits kw) digits p /\
      represented (arg_use_special kw) special_chars p) \/
  exhausted depth kw g.
Proof.
  intros Hv.
  destruct (generate_valid_cases depth kw g Hv)
    as [(p & g' & E & [_ _ Hc] & _) | Hx]; [left | now right].
  exists p, g'. unfold represented.
  split; [assumption|].
  repeat split; intros Hu; apply Hc;
    auto using selected_lowercase, selected_uppercase, selected_digits,
      selected_special.
Qed.

Lemma generate_represents_classes_witness :
  exists p g',
    generate 5 all_defaults ramp = (Ok p, g') /\
    represented true lowercase p /\ represented true uppercase p /\
    represented true digits p /\ represented true special_chars p.
Proof.
  destruct (generate_represents_classes 5 all_defaults ramp) as [H | [H _]].
  - split; [vm_compute; discriminate | reflexivity].
  - exact H.
  - vm_compute in H. discriminate H.
Defined.

(** C3: the password a valid call returns passes the pattern check. *)
Theorem generate_passes_pattern_check depth kw g :
  valid kw ->
  (exists p g',
      generate depth kw g = (Ok p, g') /\
      has_predictable_patterns p = false) \/
  exhausted depth kw g.
Proof.
  intros Hv.
  destruct (generate_valid_cases depth kw g Hv)
    as [(p & g' & E & _ & Hp) | Hx]; [left | now right].
  exists p, g'. auto.
Qed.

Lemma generate_passes_pattern_check_witness :
  exists p g',
    generate 5 (only_digits 4) ramp = (Ok p, g') /\
    has_predictable_patterns p = false.
Proof.
  destruct (generate_passes_pattern_check 5 (only_digits 4) ramp)
    as [H | [H _]].
  - split; [vm_compute; discriminate | reflexivity].
  - exact H.
  - vm_compute in H. discriminate H.
Defined.

(** ** Termination *)

(** On the tape of zeros a digits-only request of length 4 draws 0000,
    wherever the tape is read from. *)
Lemma attempt_zeros n :
  attempt (only_digits 4) (Rng (fun _ => 0) n) =
  (Ok (lit "0000"), Rng (fun _ => 0) (7 + n)).
Proof. reflexivity. Qed.

Lemma generate_zeros depth n :
  fst (generate depth (only_digits 4) (Rng (fun _ => 0) n)) =
  Raise RecursionError.
Proof.
  revert n. induction depth as [|depth IH]; intros n;
    rewrite generate_unfold, attempt_zeros;
    change (has_predictable_patterns (lit "0000")) with true; cbv iota.
  - reflexivity.
  - apply IH.
Qed.

(** C6, as stated, fails: there is no retry cap. On the tape of zeros the
    valid request for 4 digits never returns a password, whatever the
    recursion limit. *)
Lemma retries_unbounded_on_zeros :
  valid (only_digits 4) /\
  forall depth,
    fst (generate depth (only_digits 4) zeros) = Raise RecursionError.
Proof.
  split.
  - split; [vm_compute; discriminate | reflexivity].
  - intros depth. apply generate_zeros.
Qed.

(** C6, amended: every single attempt of a valid call ends with a candidate,
    and the call returns a password exactly when one of the candidates it is
    allowed to try passes the pattern check; otherwise the recursion runs
    into the interpreter's limit. *)
Theorem generate_returns_iff depth kw g :
  valid kw ->
  (exists c g', attempt kw g = (Ok c, g')) /\
  ((exists p, fst (generate depth kw g) = Ok p) <->
   (exists k, k <= depth /\ rejected kw g k = false)) /\
  (fst (generate depth kw g) = Raise RecursionError <->
   (forall k, k <= depth -> rejected kw g k = true)).
Proof.
  intros Hv. split.
  { destruct (attempt_valid kw g Hv) as (c & n & E & _). eauto. }
  destruct (generate_outcome kw Hv depth g) as
    [(k & p & Hk & _ & Hpass & _ & E & _) | [Hall E]]; rewrite E; cbn [fst].
  - split; split.
    + intros _. eauto.
    + intros _. eauto.
    + discriminate.
    + intros Hall. rewrite (Hall k Hk) in Hpass. discriminate.
  - split; split.
    + intros [p Hp]. discriminate.
    + intros (k & Hk & Hpass). rewrite (Hall k Hk) in Hpass. discriminate.
    + intros _. exact Hall.
    + reflexivity.
Qed.

Lemma generate_returns_iff_witness :
  (exists c g', attempt (only_digits 4) ramp = (Ok c, g')) /\
  ((exists p, fst (generate 2 (only_digits 4) ramp) = Ok p) <->
   (exists k, k <= 2 /\ rejected (only_digits 4) ramp k = false)) /\
  (fst (generate 2 (only_digits 4) ramp) = Raise RecursionError <->
   (forall k, k <= 2 -> rejected (only_digits 4) ramp k = true)).
Proof.
  apply (generate_returns_iff 2 (only_digits 4) ramp).
  split; [vm_compute; discriminate | reflexivity].
Defined.

(** ** Parameter errors *)

(** C10: below length 4 the call fails on the length, whatever the class
    flags are, so the error about the classes is only ever seen with a
    length of at least 4. *)
Theorem length_check_comes_first depth kw g :
  ((arg_length kw < 4)%Z ->
   generate depth kw g = (Raise (ValueError length_message), g)) /\
  (fst (generate depth kw g) = Raise (ValueError class_message) ->
   (4 <= arg_length kw)%Z).
Proof.
  split.
  - apply generate_invalid_length.
  - intros H. destruct (Z.lt_ge_cases (arg_length kw) 4) as [Hlt|]; [|done].
    rewrite (generate_invalid_length depth kw g Hlt) in H. discriminate H.
Qed.

Lemma length_check_comes_first_witness :
  generate 0 (no_class 3) zeros = (Raise (ValueError length_message), zeros) /\
  (4 <= arg_length (no_class 4))%Z.
Proof.
  split.
  - apply (proj1 (length_check_comes_first 0 (no_class 3) zeros)).
    vm_compute. reflexivity.
  - apply (proj2 (length_check_comes_first 0 (no_class 4) zeros)).
    reflexivity.
Defined.

(** ** The pattern check, clause by clause *)

Lemma has_sequential_spec p : has_sequential p = true <-> ascending_run p.
Proof.
  unfold has_sequential, ascending_run. rewrite existsb_exists. split.
  - intros (i & _ & Hi). unfold sequential_at in Hi. exists i.
    destruct (p !! i) as [a|]; [|discriminate].
    destruct (p !! (i + 1)) as [b|]; [|discriminate].
    destruct (p !! (i + 2)) as [c|]; [|discriminate].
    apply andb_prop in Hi as [H1 H2].
    apply Nat.eqb_eq in H1, H2. exists a, b, c. auto.
  - intros (i & a & b & c & Ha & Hb & Hc & H1 & H2). exists i. split.
    + apply in_seq. apply lookup_lt_Some in Hc. lia.
    + unfold sequential_at. rewrite Ha, Hb, Hc, H1, H2.
      now rewrite !Nat.eqb_refl.
Qed.

Lemma backrefs_spec c s :
  2 <= backrefs c s <-> exists rest, s = c :: c :: rest.
Proof.
  split.
  - destruct s as [|a [|b rest]]; simpl; try lia.
    + destruct (Ascii.eqb a c); simpl; lia.
    + destruct (Ascii.eqb a c) eqn:Ea; [|lia].
      destruct (Ascii.eqb b c) eqn:Eb; [|lia].
      apply Ascii.eqb_eq in Ea, Eb. subst. eauto.
  - intros [rest ->]. simpl. rewrite !Ascii.eqb_refl. lia.
Qed.

Lemma match_here_spec s :
  match_here s = true <->
  exists c rest, c <> newline /\ s = c :: c :: c :: rest.
Proof.
  destruct s as [|c s]; cbn [match_here].
  - split; [discriminate | intros (c & rest & _ & H); discriminate H].
  - unfold dot_matches. rewrite andb_true_iff, negb_true_iff, Ascii.eqb_neq.
    rewrite Nat.leb_le, backrefs_spec. split.
    + intros [Hc [rest ->]]. eauto.
    + intros (d & rest & Hd & H). injection H as -> ->. eauto.
Qed.

Lemma re_search_repeated_spec s :
  re_search_repeated s = true <-> exists c, c <> newline /\ run_of c s.
Proof.
  induction s as [|a s IH].
  - split; [discriminate|]. intros (c & _ & i & H & _). discriminate H.
  - cbn [re_search_repeated]. rewrite orb_true_iff, match_here_spec, IH.
    split.
    + intros [(c & rest & Hc & E) | (c & Hc & i & H0 & H1 & H2)].
      * exists c. split; [assumption|]. exists 0. rewrite E. auto.
      * exists c. split; [assumption|]. exists (S i). auto.
    + intros (c & Hc & [|i] & H0 & H1 & H2).
      * left. destruct s as [|b [|d rest]]; try discriminate.
        simpl in H0, H1, H2. injection H0 as ->. injection H1 as ->.
        injection H2 as ->. eauto.
      * right. exists c. split; [assumption|]. exists i. auto.
Qed.

Lemma starts_with_spec pattern s :
  starts_with pattern s = true <-> exists back, s = pattern ++ back.
Proof.
  revert s. induction pattern as [|a pattern IH]; intros s.
  - simpl. split; eauto.
  - destruct s as [|b s]; simpl.
    + split; [discriminate | intros [back H]; discriminate H].
    + rewrite andb_true_iff, Ascii.eqb_eq, IH. split.
      * intros [-> [back ->]]. eauto.
      * intros [back H]. injection H as -> ->. eauto.
Qed.

Lemma contains_spec pattern s :
  contains pattern s = true <-> substring pattern s.
Proof.
  unfold substring. induction s as [|a s IH].
  - simpl. rewrite orb_false_r, starts_with_spec. split.
    + intros [back H]. exists [], back. exact H.
    + intros (front & back & H). destruct front; [eauto | discriminate].
  - cbn [contains]. rewrite orb_true_iff, starts_with_spec, IH. split.
    + intros [[back H] | (front & back & ->)].
      * exists [], back. exact H.
      * exists (a :: front), back. reflexivity.
    + intros ([|b front] & back & H).
      * left. eauto.
      * right. injection H as -> ->. eauto.
Qed.

(** What the code flags: the three clauses of the specification, but a
    repeated run of line feeds does not count. *)
Lemma has_predictable_patterns_spec p :
  has_predictable_patterns p = true <->
  ascending_run p \/ (exists c, c <> newline /\ run_of c p) \/ denylisted p.
Proof.
  unfold has_predictable_patterns, denylisted.
  rewrite <- has_sequential_spec, <- re_search_repeated_spec.
  destruct (has_sequential p); [tauto|].
  destruct (re_search_repeated p); [tauto|].
  rewrite existsb_exists. split.
  - intros (pattern & Hin & H). right. right. exists pattern.
    rewrite <- contains_spec, list_elem_of_In. auto.
  - intros [H | [H | (pattern & Hin & H)]]; try discriminate.
    exists pattern. rewrite contains_spec, <- list_elem_of_In. auto.
Qed.

(** Away from line feeds the code and the specification agree. *)
Lemma has_predictable_patterns_no_newline p :
  newline ∉ p ->
  (has_predictable_patterns p = true <-> spec_predictable p).
Proof.
  intros Hnl. rewrite has_predictable_patterns_spec. unfold spec_predictable.
  assert (Hrun : (exists c, c <> newline /\ run_of c p) <-> repeated_run p).
  { split.
    - intros (c & _ & H). now exists c.
    - intros [c H]. exists c. split; [|assumption].
      intros ->. apply Hnl. destruct H as (i & H & _).
      eapply list_elem_of_lookup_2, H. }
  rewrite Hrun. reflexivity.
Qed.

(** C4: the clause on repeated characters does not hold of the code for the
    line feed, which the dot of the regular expression does not match: three
    line feeds are a repeated run in the words of the specification, and the
    check lets them pass. *)
Theorem newline_run_not_flagged :
  spec_predictable [newline; newline; newline] /\
  has_predictable_patterns [newline; newline; newline] = false.
Proof.
  split; [|reflexivity].
  right. left. exists newline, 0. auto.
Qed.

Lemma common_patterns_length :
  Forall (fun pattern : str => length pattern = 3) common_patterns.
Proof. repeat constructor. Qed.

(** C9: a string of at most 2 characters is never flagged. *)
Theorem short_passwords_not_flagged (p : str) :
  length p <= 2 -> has_predictable_patterns p = false.
Proof.
  intros Hlen. destruct (has_predictable_patterns p) eqn:E; [|reflexivity].
  exfalso. apply has_predictable_patterns_spec in E.
  destruct E as [(i & a & b & c & _ & _ & Hc & _) |
                 [(c & _ & i & _ & _ & Hc) | (pattern & Hin & Hsub)]].
  - apply lookup_lt_Some in Hc. lia.
  - apply lookup_lt_Some in Hc. lia.
  - pose proof common_patterns_length as H3.
    rewrite Forall_forall in H3. specialize (H3 pattern Hin).
    destruct Hsub as (front & back & Hs).
    apply (f_equal length) in Hs. unfold lower in Hs.
    rewrite length_map, !length_app in Hs. lia.
Qed.

Lemma short_passwords_not_flagged_witness :
  has_predictable_patterns (lit "zz") = false.
Proof. apply short_passwords_not_flagged. simpl. lia. Defined.

(** ** The alphabets *)

Lemma all_classes_NoDup :
  NoDup (lowercase ++ uppercase ++ digits ++ special_chars).
Proof. apply (bool_decide_unpack _). vm_compute. exact I. Qed.

(** C8: no character lies in two of the four alphabets, and the pool of any
    selection of classes holds no character twice. *)
Theorem alphabets_pairwise_disjoint :
  disjoint lowercase uppercase /\ disjoint lowercase digits /\
  disjoint lowercase special_chars /\ disjoint uppercase digits /\
  disjoint uppercase special_chars /\ disjoint digits special_chars /\
  forall kw, NoDup (pool kw).
Proof.
  pose proof all_classes_NoDup as H.
  apply NoDup_app in H as (Hl & Hl' & H).
  apply NoDup_app in H as (Hu & Hu' & H).
  apply NoDup_app in H as (Hd & Hd' & Hs).
  unfold disjoint. conjuncts.
  - intros c Ha Hb. apply (Hl' c Ha). rewrite !elem_of_app. auto.
  - intros c Ha Hb. apply (Hl' c Ha). rewrite !elem_of_app. auto.
  - intros c Ha Hb. apply (Hl' c Ha). rewrite !elem_of_app. auto.
  - intros c Ha Hb. apply (Hu' c Ha). rewrite !elem_of_app. auto.
  - intros c Ha Hb. apply (Hu' c Ha). rewrite !elem_of_app. auto.
  - intros c Ha Hb. apply (Hd' c Ha Hb).
  - intros kw. unfold pool, selected.
    destruct (arg_use_lowercase kw), (arg_use_uppercase kw),
      (arg_use_digits kw), (arg_use_special kw);
      apply (bool_decide_unpack _); vm_compute; exact I.
Qed.

(** ** Batches *)

Lemma generate_further depth kw g r g' :
  valid kw -> generate depth kw g = (r, g') -> further g g'.
Proof.
  intros Hv E.
  assert (exists k, g' = after (S k) kw g) as [k ->].
  { destruct (generate_outcome kw Hv depth g) as
      [(k & p & _ & _ & _ & _ & E' & _) | [_ E']];
      rewrite E' in E; injection E as _ <-; eauto. }
  destruct (after_skip kw g (S k) Hv) as (n & -> & Hn).
  split; simpl; [reflexivity | lia].
Qed.

Lemma generate_loop_cases kw :
  valid kw ->
  forall n depth acc g,
    (exists ps g',
        generate_loop n depth kw acc g = (Ok (acc ++ ps), g') /\
        length ps = n /\ calls depth kw g ps g') \/
    (exists ps g1 g',
        length ps < n /\ calls depth kw g ps g1 /\
        generate depth kw g1 = (Raise RecursionError, g') /\
        generate_loop n depth kw acc g = (Raise RecursionError, g')).
Proof.
  intros Hv. induction n as [|n IH]; intros depth acc g.
  - left. exists [], g. rewrite app_nil_r. repeat split. constructor.
  - cbn [generate_loop].
    destruct (generate_valid_cases depth kw g Hv)
      as [(p & g1 & E & _) | [Hx _]].
    + rewrite (bind_Ok _ _ _ _ _ E).
      pose proof (generate_further _ _ _ _ _ Hv E) as Hf.
      destruct (IH depth (acc ++ [p]) g1)
        as [(ps & g' & El & Hl & Hc) | (ps & g2 & g' & Hl & Hc & Eg & El)].
      * left. exists (p :: ps), g'. rewrite El, <- app_assoc. simpl.
        repeat split; [lia | econstructor; eassumption].
      * right. exists (p :: ps), g2, g'. simpl.
        repeat split; [lia | econstructor; eassumption | assumption..].
    + destruct (generate depth kw g) as [r g'] eqn:E. simpl in Hx. subst r.
      right. exists [], g, g'. rewrite (bind_Raise _ _ _ _ _ E). simpl.
      repeat split; [lia | constructor | assumption].
Qed.

Lemma batch_count_error depth count kw g :
  (count < 1)%Z ->
  generate_multiple_passwords depth count kw g =
  (Raise (ValueError count_message), g).
Proof.
  intros H. unfold generate_multiple_passwords.
  now rewrite (proj2 (Z.ltb_lt _ _) H).
Qed.

Lemma batch_first_call_fails depth count kw g e g' :
  (1 <= count)%Z ->
  generate depth kw g = (Raise e, g') ->
  generate_multiple_passwords depth count kw g = (Raise e, g').
Proof.
  intros H E. unfold generate_multiple_passwords.
  rewrite (proj2 (Z.ltb_ge _ _) H).
  destruct (Z.to_nat count) as [|n] eqn:En; [lia|].
  cbn [generate_loop]. now rewrite (bind_Raise _ _ _ _ _ E).
Qed.

(** A batch for a valid request ends in passwords or in [RecursionError]. *)
Lemma batch_valid_result depth count kw g :
  valid kw -> (1 <= count)%Z ->
  (exists ps, fst (generate_multiple_passwords depth count kw g) = Ok ps) \/
  fst (generate_multiple_passwords depth count kw g) = Raise RecursionError.
Proof.
  intros Hv Hc. unfold generate_multiple_passwords.
  rewrite (proj2 (Z.ltb_ge _ _) Hc).
  destruct (generate_loop_cases kw Hv (Z.to_nat count) depth [] g)
    as [(ps & g' & E & _) | (ps & g1 & g' & _ & _ & _ & E)]; rewrite E.
  - left. now exists ps.
  - now right.
Qed.

(** C7: for a valid request and a count of at least 1 the batch is exactly
    [count] passwords, the results of [count] successive calls of
    [generate_password], each reading the tape past the draws of the one
    before; and when one of the calls fails, the batch fails with it at that
    point and returns no password at all. *)
Theorem batch_of_independent_calls depth count kw g :
  valid kw -> (1 <= count)%Z ->
  (exists ps g',
      generate_multiple_passwords depth count kw g = (Ok ps, g') /\
      Z.of_nat (length ps) = count /\ calls depth kw g ps g') \/
  (exists ps g1 g',
      (Z.of_nat (length ps) < count)%Z /\ calls depth kw g ps g1 /\
      generate depth kw g1 = (Raise RecursionError, g') /\
      generate_multiple_passwords depth count kw g =
      (Raise RecursionError, g')).
Proof.
  intros Hv Hc. unfold generate_multiple_passwords.
  rewrite (proj2 (Z.ltb_ge _ _) Hc).
  destruct (generate_loop_cases kw Hv (Z.to_nat count) depth [] g)
    as [(ps & g' & E & Hl & Hcalls) | (ps & g1 & g' & Hl & Hcalls & Eg & E)].
  - left. exists ps, g'. rewrite E. repeat split; [lia | assumption].
  - right. exists ps, g1, g'. repeat split; [lia | assumption..].
Qed.

Lemma batch_of_independent_calls_witness :
  exists ps g',
    generate_multiple_passwords 3 5 all_defaults ramp = (Ok ps, g') /\
    Z.of_nat (length ps) = 5%Z /\ calls 3 all_defaults ramp ps g'.
Proof.
  destruct (batch_of_independent_calls 3 5 all_defaults ramp)
    as [H | (ps & g1 & g' & _ & _ & _ & H)].
  - split; [vm_compute; discriminate | reflexivity].
  - vm_compute. discriminate.
  - exact H.
  - vm_compute in H. discriminate H.
Defined.

(** ** [ValueError] *)

(** C5, as stated, fails for batches: with a count of 1 the batch still
    raises [ValueError] when the request itself is invalid. *)
Lemma batch_raises_with_valid_count :
  (1 <= 1)%Z /\
  generate_multiple_passwords 0 1 short_request zeros =
  (Raise (ValueError length_message), zeros).
Proof. split; [lia | reflexivity]. Qed.

Lemma invalid_cases kw :
  valid kw \/ (arg_length kw < 4)%Z \/
  ((4 <= arg_length kw)%Z /\ any_class kw = false).
Proof.
  unfold valid. destruct (Z.lt_ge_cases (arg_length kw) 4); [auto|].
  destruct (any_class kw); auto.
Qed.

(** C5, amended: [generate_password] raises [ValueError] exactly when the
    length is below 4 or no class is selected; the batch raises it exactly
    when the count is below 1 or the request is invalid in one of these two
    ways. The error is raised on the spot, before any draw and whatever the
    recursion limit, and its message names the constraint: the count (checked
    first), then the length, then the classes. *)
Theorem parameter_errors depth count kw g :
  (raises_ValueError (fst (generate depth kw g)) <->
   (arg_length kw < 4)%Z \/ any_class kw = false) /\
  (raises_ValueError (fst (generate_multiple_passwords depth count kw g)) <->
   (count < 1)%Z \/ (arg_length kw < 4)%Z \/ any_class kw = false) /\
  ((arg_length kw < 4)%Z ->
   generate depth kw g = (Raise (ValueError length_message), g)) /\
  ((4 <= arg_length kw)%Z -> any_class kw = false ->
   generate depth kw g = (Raise (ValueError class_message), g)) /\
  ((count < 1)%Z ->
   generate_multiple_passwords depth count kw g =
   (Raise (ValueError count_message), g)) /\
  ((1 <= count)%Z ->
   forall msg,
     generate depth kw g = (Raise (ValueError msg), g) ->
     generate_multiple_passwords depth count kw g =
     (Raise (ValueError msg), g)).
Proof.
  conjuncts.
  - destruct (invalid_cases kw) as [Hv | [Hl | [Hl Hn]]].
    + destruct (generate_valid_cases depth kw g Hv)
        as [(p & g' & E & _) | [Hx _]].
      * rewrite E. destruct Hv as [Hl Ha]. split.
        -- intros [msg H]. discriminate H.
        -- intros [H | H]; [lia | congruence].
      * rewrite Hx. destruct Hv as [Hl Ha]. split.
        -- intros [msg H]. discriminate H.
        -- intros [H | H]; [lia | congruence].
    + rewrite (generate_invalid_length depth kw g Hl).
      split; [auto | intros _; now eexists].
    + rewrite (generate_no_class depth kw g Hl Hn).
      split; [auto | intros _; now eexists].
  - destruct (Z.lt_ge_cases count 1) as [Hc | Hc].
    { rewrite (batch_count_error depth count kw g Hc).
      split; [auto | intros _; now eexists]. }
    destruct (invalid_cases kw) as [Hv | [Hl | [Hl Hn]]].
    + destruct (batch_valid_result depth count kw g Hv Hc) as [[ps E] | E];
        rewrite E; destruct Hv as [Hl Ha]; (split;
          [ intros [msg H]; discriminate H
          | intros [H | [H | H]]; [lia | lia | congruence] ]).
    + rewrite (batch_first_call_fails depth count kw g _ _ Hc
                 (generate_invalid_length depth kw g Hl)).
      split; [auto | intros _; now eexists].
    + rewrite (batch_first_call_fails depth count kw g _ _ Hc
                 (generate_no_class depth kw g Hl Hn)).
      split; [auto | intros _; now eexists].
  - apply generate_invalid_length.
  - apply generate_no_class.
  - apply batch_count_error.
  - intros Hc msg E. now apply batch_first_call_fails.
Qed.

Lemma parameter_errors_witness :
  generate 7 short_request ramp = (Raise (ValueError length_message), ramp) /\
  generate 7 (no_class 9) ramp = (Raise (ValueError class_message), ramp) /\
  generate_multiple_passwords 7 0 all_defaults ramp =
  (Raise (ValueError count_message), ramp) /\
  generate_multiple_passwords 7 2 (no_class 9) ramp =
  (Raise (ValueError class_message), ramp).
Proof.
  pose proof (parameter_errors 7 0 short_request ramp)
    as (_ & _ & H1 & _).
  pose proof (parameter_errors 7 2 (no_class 9) ramp)
    as (_ & _ & _ & H2 & _ & H4).
  pose proof (parameter_errors 7 0 all_defaults ramp)
    as (_ & _ & _ & _ & H3 & _).
  split; [apply H1; reflexivity|].
  split; [apply H2; [vm_compute; discriminate | reflexivity]|].
  split; [apply H3; reflexivity|].
  apply H4; [vm_compute; discriminate|].
  apply H2; [vm_compute; discriminate | reflexivity].
Defined.

(** * The rest of the program *)

(** ** More on the generator *)

Lemma pool_no_newline kw : newline ∉ pool kw.
Proof.
  unfold pool, selected.
  destruct (arg_use_lowercase kw), (arg_use_uppercase kw),
    (arg_use_digits kw), (arg_use_special kw);
    apply (bool_decide_unpack _); vm_compute; exact I.
Qed.

(** X1: a password returned for a valid request has no ascending run, no
    character three times in a row and no denylisted substring: the three
    clauses hold in full, the pool having no line feed. *)
Theorem generated_passwords_avoid_patterns depth kw g p g' :
  valid kw -> generate depth kw g = (Ok p, g') -> ~ spec_predictable p.
Proof.
  intros Hv E.
  destruct (generate_valid_cases depth kw g Hv)
    as [(q & g1 & E' & [_ Ha _] & Hq) | [Hx _]].
  - rewrite E in E'. injection E' as <- <-.
    assert (Hnl : newline ∉ p).
    { intros Hin. rewrite Forall_forall in Ha.
      exact (pool_no_newline kw (Ha _ Hin)). }
    rewrite <- (has_predictable_patterns_no_newline p Hnl), Hq. discriminate.
  - rewrite E in Hx. discriminate Hx.
Qed.

Lemma generated_passwords_avoid_patterns_witness :
  valid (only_digits 4) /\ ~ spec_predictable (lit "3074").
Proof.
  assert (Hv : valid (only_digits 4)).
  { split; [vm_compute; discriminate | reflexivity]. }
  split; [exact Hv|].
  apply (generated_passwords_avoid_patterns 5 (only_digits 4) ramp
           (lit "3074") (snd (generate 5 (only_digits 4) ramp)) Hv).
  reflexivity.
Defined.

Lemma substring_extend pattern front s back :
  substring pattern s -> substring pattern (front ++ s ++ back).
Proof.
  intros (f & b & ->). exists (front ++ f), (b ++ back).
  now rewrite <- !app_assoc.
Qed.

Lemma lookup_inside (front s back : str) i c :
  s !! i = Some c -> (front ++ s ++ back) !! (length front + i) = Some c.
Proof.
  intros H. rewrite lookup_app_r by lia.
  replace (length front + i - length front) with i by lia.
  now apply lookup_app_l_Some.
Qed.

(** X2: a string that holds a flagged string is flagged. *)
Theorem flagged_inside_is_flagged front p back :
  has_predictable_patterns p = true ->
  has_predictable_patterns (front ++ p ++ back) = true.
Proof.
  rewrite !has_predictable_patterns_spec.
  intros [(i & a & b & c & Ha & Hb & Hc & H1 & H2) |
          [(c & Hc & i & H0 & H1 & H2) | (pattern & Hin & Hsub)]].
  - left. exists (length front + i), a, b, c.
    rewrite <- !Nat.add_assoc. auto using lookup_inside.
  - right. left. exists c. split; [assumption|].
    exists (length front + i).
    rewrite <- !Nat.add_assoc. auto using lookup_inside.
  - right. right. exists pattern. split; [assumption|].
    unfold lower. rewrite !map_app. now apply substring_extend.
Qed.

Lemma flagged_inside_is_flagged_witness :
  has_predictable_patterns (lit "kP9#" ++ lit "QwE" ++ lit "mQ2$") = true.
Proof. apply flagged_inside_is_flagged. reflexivity. Defined.

(** One attempt of a valid call reads [2 * length - 1] cells: one per
    required character, one per filler, [length - 1] for the shuffle. *)
Lemma attempt_draws kw g :
  valid kw ->
  snd (attempt kw g) = skip (2 * Z.to_nat (arg_length kw) - 1) g.
Proof.
  intros [Hlen Hany]. unfold attempt, candidate.
  rewrite (proj2 (Z.ltb_ge _ _) Hlen).
  destruct (build_pool_total kw g) as ([cp rc] & E & Hcp & Hrc).
  rewrite (bind_Ok _ _ _ _ _ E). simpl in Hcp, Hrc.
  fold (pool kw) in Hcp.
  pose proof (pool_nonempty kw Hany) as Hne. rewrite <- Hcp in Hne.
  destruct cp as [|c0 cp0]; [congruence|]. set (cp := c0 :: cp0) in *.
  pose proof (selected_at_most_4 kw) as H4.
  pose proof (Forall2_length _ _ _ Hrc) as Hrl.
  destruct (fill_total
              (Z.to_nat (arg_length kw - Z.of_nat (length rc))) cp rc
              (skip (length (selected kw)) g) Hne)
    as (extra & Ef & Hel & _).
  destruct (shuffle_total (rc ++ extra)
              (skip (Z.to_nat (arg_length kw - Z.of_nat (length rc)))
                    (skip (length (selected kw)) g))) as (p & Es & _).
  cbv iota. fold cp. rewrite (bind_Ok _ _ _ _ _ Ef), (bind_Ok _ _ _ _ _ Es).
  unfold ret. cbn [snd]. rewrite !skip_skip, length_app, Hel.
  f_equal. lia.
Qed.

Lemma after_draws kw g k :
  valid kw ->
  after k kw g = skip (k * (2 * Z.to_nat (arg_length kw) - 1)) g.
Proof.
  intros Hv. revert g. induction k as [|k IH]; intros g.
  - now rewrite skip_0.
  - cbn [after]. rewrite (attempt_draws kw g Hv), IH, skip_skip.
    f_equal. lia.
Qed.

(** X3: a call for a valid request reads the tape in whole attempts of
    [2 * length - 1] cells each, at least one and at most [depth + 1] of
    them, whether it returns or gives up. *)
Theorem generate_draws depth kw g r g' :
  valid kw -> generate depth kw g = (r, g') ->
  exists attempts,
    1 <= attempts <= depth + 1 /\
    g' = skip (attempts * (2 * Z.to_nat (arg_length kw) - 1)) g.
Proof.
  intros Hv E.
  destruct (generate_outcome kw Hv depth g) as
    [(k & p & Hk & _ & _ & _ & E' & _) | [_ E']];
    rewrite E' in E; injection E as _ <-.
  - exists (S k). split; [lia | exact (after_draws kw g (S k) Hv)].
  - exists (S depth). split; [lia | exact (after_draws kw g (S depth) Hv)].
Qed.

Lemma generate_draws_witness :
  exists attempts,
    1 <= attempts <= 5 + 1 /\
    snd (generate 5 all_defaults ramp) = skip (attempts * 23) ramp.
Proof.
  apply (generate_draws 5 all_defaults ramp
           (fst (generate 5 all_defaults ramp))).
  - split; [vm_compute; discriminate | reflexivity].
  - now destruct (generate 5 all_defaults ramp).
Defined.

(** ** The earlier script *)

Lemma legacy_unfold length u l d s g :
  Legacy.generate_password length u l d s g =
  match legacy_characters u l d s with
  | [] => (Ok Legacy.no_sets_message, g)
  | _ :: _ =>
      Legacy.join_choices (Z.to_nat length) (legacy_characters u l d s) g
  end.
Proof. destruct u, l, d, s; reflexivity. Qed.

Lemma legacy_characters_nonempty u l d s :
  u || l || d || s = true -> legacy_characters u l d s <> [].
Proof. destruct u, l, d, s; simpl; intros H; discriminate. Qed.

Lemma join_choices_total n (characters : str) g :
  characters <> [] ->
  exists p,
    Legacy.join_choices n characters g = (Ok p, skip n g) /\
    length p = n /\ Forall (fun c => c ∈ characters) p.
Proof.
  intros Hne. revert g. induction n as [|n IH]; intros g.
  - exists []. simpl. unfold ret. now rewrite skip_0.
  - destruct (choice_total characters g Hne) as (c & Ec & Hc).
    destruct (IH (skip 1 g)) as (p & E & Hl & Hall).
    exists (c :: p). cbn [Legacy.join_choices].
    rewrite (bind_Ok _ _ _ _ _ Ec), (bind_Ok _ _ _ _ _ E). unfold ret.
    rewrite skip_skip. simpl.
    repeat split; [do 2 f_equal; lia | lia | now constructor].
Qed.

(** X4: with a set selected the earlier [generate_password] never raises,
    whatever the length: it returns exactly [length] characters of the
    selected sets (none for a length of zero or below), one draw each. *)
Theorem legacy_length_and_alphabet length u l d s g :
  u || l || d || s = true ->
  exists p,
    Legacy.generate_password length u l d s g =
    (Ok p, skip (Z.to_nat length) g) /\
    List.length p = Z.to_nat length /\
    Forall (fun c => c ∈ legacy_characters u l d s) p.
Proof.
  intros Hsel. rewrite legacy_unfold.
  pose proof (legacy_characters_nonempty u l d s Hsel) as Hne.
  destruct (join_choices_total (Z.to_nat length) _ g Hne) as (p & E & H).
  exists p. destruct (legacy_characters u l d s); [congruence|]. now split.
Qed.

Lemma legacy_length_and_alphabet_witness :
  exists p,
    Legacy.generate_password (-2) true false true false ramp =
    (Ok p, skip (Z.to_nat (-2)) ramp) /\
    List.length p = Z.to_nat (-2) /\
    Forall (fun c => c ∈ legacy_characters true false true false) p.
Proof.
  apply (legacy_length_and_alphabet (-2) true false true false ramp).
  reflexivity.
Defined.

Lemma legacy_characters_no_space u l d s :
  " "%char ∉ legacy_characters u l d s.
Proof.
  destruct u, l, d, s; apply (bool_decide_unpack _); vm_compute; exact I.
Qed.

(** X5: the earlier [generate_password] returns its message about missing
    character sets exactly when no set is selected; a password it builds is
    never that text, which holds a space. *)
Theorem legacy_message_iff_no_set length u l d s g :
  fst (Legacy.generate_password length u l d s g) = Ok Legacy.no_sets_message
  <-> u || l || d || s = false.
Proof.
  destruct (u || l || d || s) eqn:Hsel.
  - destruct (legacy_length_and_alphabet length u l d s g Hsel)
      as (p & E & _ & Hall).
    rewrite E. cbn [fst]. split; [|discriminate].
    intros [= ->]. exfalso.
    apply (legacy_characters_no_space u l d s).
    rewrite Forall_forall in Hall. apply Hall.
    apply (bool_decide_unpack _). vm_compute. exact I.
  - destruct u, l, d, s; try discriminate Hsel. split; reflexivity.
Qed.

Lemma join_choices_zeros n c0 (characters : str) k :
  Legacy.join_choices n (c0 :: characters) (Rng (fun _ => 0) k) =
  (Ok (replicate n c0), Rng (fun _ => 0) (n + k)).
Proof.
  revert k. induction n as [|n IH]; intros k; [reflexivity|].
  cbn [Legacy.join_choices].
  assert (Ec : choice (c0 :: characters) (Rng (fun _ => 0) k) =
               (Ok c0, Rng (fun _ => 0) (S k))).
  { unfold choice, bind, randbelow, advance. cbn [tape pos].
    rewrite Nat.Div0.mod_0_l. reflexivity. }
  rewrite (bind_Ok _ _ _ _ _ Ec), (bind_Ok _ _ _ _ _ (IH (S k))).
  unfold ret. simpl. do 2 f_equal. lia.
Qed.

(** X6: the earlier [generate_password] has no pattern check: for every
    length of 3 or more and every selection of sets there are draws (all of
    them 0) on which it returns a password that [_has_predictable_patterns]
    flags, one character repeated. *)
Theorem legacy_returns_flagged_passwords length u l d s :
  (3 <= length)%Z -> u || l || d || s = true ->
  exists c0,
    fst (Legacy.generate_password length u l d s zeros) =
    Ok (replicate (Z.to_nat length) c0) /\
    has_predictable_patterns (replicate (Z.to_nat length) c0) = true.
Proof.
  intros Hlen Hsel. rewrite legacy_unfold.
  pose proof (legacy_characters_nonempty u l d s Hsel) as Hne.
  pose proof (legacy_characters_no_space u l d s) as Hsp.
  assert (Hnl : newline ∉ legacy_characters u l d s).
  { destruct u, l, d, s; apply (bool_decide_unpack _); vm_compute; exact I. }
  destruct (legacy_characters u l d s) as [|c0 cs]; [congruence|].
  exists c0. unfold zeros. rewrite join_choices_zeros. split; [reflexivity|].
  apply has_predictable_patterns_spec. right. left. exists c0. split.
  - intros ->. apply Hnl. constructor.
  - exists 0. rewrite !lookup_replicate. repeat split; lia.
Qed.

Lemma legacy_returns_flagged_passwords_witness :
  exists c0,
    fst (Legacy.generate_password 8 false true true true zeros) =
    Ok (replicate (Z.to_nat 8) c0) /\
    has_predictable_patterns (replicate (Z.to_nat 8) c0) = true.
Proof.
  apply (legacy_returns_flagged_passwords 8 false true true true);
    [vm_compute; discriminate | reflexivity].
Defined.

(** ** The numbered lists on the screen and in the file *)

Lemma listing_from_cons i password (rest : list str) :
  listing_from i (password :: rest) =
  (password_line i password ++ [newline]) ++ listing_from (S i) rest.
Proof.
  unfold listing_from. rewrite imap_cons, concat_cons, Nat.add_0_r.
  f_equal. f_equal. apply imap_ext. intros k p _. simpl.
  now rewrite Nat.add_succ_r.
Qed.

Lemma write_passwords_listing (passwords : list str) i file :
  write_passwords i passwords file = file ++ listing_from i passwords.
Proof.
  revert i file. induction passwords as [|p ps IH]; intros i file.
  - simpl. now rewrite app_nil_r.
  - cbn [write_passwords]. rewrite IH, listing_from_cons.
    now rewrite <- !app_assoc.
Qed.

Lemma print_passwords_listing (passwords : list str) i out :
  print_passwords i passwords out = out ++ listing_from i passwords.
Proof.
  revert i out. induction passwords as [|p ps IH]; intros i out.
  - simpl. now rewrite app_nil_r.
  - cbn [print_passwords]. unfold print. rewrite IH, listing_from_cons.
    now rewrite <- !app_assoc.
Qed.

Lemma saved_text (passwords : list str) :
  write_passwords 1 passwords
    (([] ++ lit "Generated Secure Passwords" ++ [newline]) ++
     replicate 30 "="%char ++ [newline; newline]) =
  file_header ++ listing passwords.
Proof.
  rewrite write_passwords_listing. unfold file_header, listing.
  now rewrite <- !app_assoc.
Qed.


Lemma split_at_newline (p q rest rest' : str) :
  newline ∉ p -> newline ∉ q ->
  p ++ newline :: rest = q ++ newline :: rest' -> p = q /\ rest = rest'.
Proof.
  revert q. induction p as [|a p IH]; intros [|b q] Hp Hq E; simpl in E.
  - now injection E.
  - injection E as <- _. exfalso. apply Hq. constructor.
  - injection E as -> _. exfalso. apply Hp. constructor.
  - injection E as -> E.
    destruct (IH q) as [-> ->]; auto.
    + intros H. apply Hp. now constructor.
    + intros H. apply Hq. now constructor.
Qed.

Lemma listing_from_inj (ps qs : list str) i :
  Forall (fun p : str => newline ∉ p) ps ->
  Forall (fun p : str => newline ∉ p) qs ->
  listing_from i ps = listing_from i qs -> ps = qs.
Proof.
  intros Hps. revert qs i.
  induction Hps as [|p ps Hp _ IH]; intros qs i Hqs E;
    destruct Hqs as [|q qs Hq Hqs]; [reflexivity | | |].
  - rewrite listing_from_cons in E. discriminate E.
  - rewrite listing_from_cons in E. discriminate E.
  - rewrite !listing_from_cons in E. unfold password_line in E.
    rewrite <- !app_assoc in E.
    apply app_inv_head, app_inv_head, app_inv_head in E.
    destruct (split_at_newline _ _ _ _ Hp Hq E) as [-> E'].
    f_equal. now apply (IH qs (S i)).
Qed.

(** X8: the saved file tells the passwords: two lists of passwords without
    line feeds that leave the same text in a file are the same list. *)
Theorem saved_file_determines_passwords ps qs name d out :
  Forall (fun p : str => newline ∉ p) ps ->
  Forall (fun p : str => newline ∉ p) qs ->
  refused d name = None ->
  files (fst (save_passwords_to_file ps (Some name) d out)) !! name =
  files (fst (save_passwords_to_file qs (Some name) d out)) !! name ->
  ps = qs.
Proof.
  intros Hps Hqs Hopen E. unfold save_passwords_to_file in E.
  rewrite Hopen in E. cbn [fst files] in E.
  rewrite !lookup_insert_eq, !saved_text in E.
  apply (inj Some), app_inv_head in E.
  now apply (listing_from_inj ps qs 1).
Qed.

Lemma saved_file_determines_passwords_witness :
  [lit "kP9#mQ2$"; lit "3074"] = [lit "kP9#mQ2$"; lit "3074"].
Proof.
  apply (saved_file_determines_passwords _ _ (lit "out.txt") empty_disk []).
  - repeat constructor; apply (bool_decide_unpack _); vm_compute; exact I.
  - repeat constructor; apply (bool_decide_unpack _); vm_compute; exact I.
  - reflexivity.
  - reflexivity.
Defined.

(** X9: the screen and the file show the same numbered lines:
    [display_passwords] prints, between its header and its rule, exactly the
    text [save_passwords_to_file] writes after the file's header. *)
Theorem display_and_file_agree passwords name d out out' :
  display_passwords passwords out =
  out ++ display_header ++ listing passwords ++ display_footer /\
  (refused d name = None ->
   files (fst (save_passwords_to_file passwords (Some name) d out'))
     !! name = Some (file_header ++ listing passwords)).
Proof.
  split.
  - unfold display_passwords, print. rewrite print_passwords_listing.
    unfold display_header, display_footer, listing.
    now rewrite <- !app_assoc.
  - intros Hopen. unfold save_passwords_to_file. rewrite Hopen.
    cbn [fst files]. now rewrite lookup_insert_eq, saved_text.
Qed.

Lemma display_and_file_agree_witness :
  display_passwords [lit "3074"] [] =
  [] ++ display_header ++ listing [lit "3074"] ++ display_footer /\
  files (fst (save_passwords_to_file [lit "3074"] (Some (lit "f")) empty_disk
                                     []))
    !! lit "f" = Some (file_header ++ listing [lit "3074"]).
Proof.
  destruct (display_and_file_agree [lit "3074"] (lit "f") empty_disk [] [])
    as [H1 H2].
  split; [exact H1 | apply H2; reflexivity].
Defined.

(** ** The questions of [get_user_input] *)

Section Console_facts.
Variable int : str -> option Z.

Lemma input_spec prompt c r c' :
  input prompt c = (r, c') ->
  match r with
  | Got line => stdin c = line :: stdin c'
  | EOFError => stdin c = [] /\ stdin c' = []
  end.
Proof.
  unfold input. destruct (stdin c) as [|line rest]; intros [= <- <-];
    simpl; auto.
Qed.

Lemma ask_unless_n_spec prompt c r c' :
  ask_unless_n prompt c = (r, c') ->
  match r with
  | Got _ => exists line, stdin c = line :: stdin c'
  | EOFError => stdin c = [] /\ stdin c' = []
  end.
Proof.
  unfold ask_unless_n. destruct (input prompt c) as [[line|] c1] eqn:E;
    apply input_spec in E; intros [= <- <-]; eauto.
Qed.

Lemma ask_length_spec lines out r c' :
  ask_length int lines out = (r, c') ->
  exists used,
    lines = used ++ stdin c' /\
    match r with
    | Got n => (4 <= n)%Z /\ 1 <= length used
    | EOFError => stdin c' = []
    end.
Proof.
  revert out. induction lines as [|line rest IH]; intros out; cbn [ask_length].
  - intros [= <- <-]. exists []. auto.
  - destruct (int line) as [n|].
    + destruct (4 <=? n)%Z eqn:Hn.
      * intros [= <- <-]. exists [line]. simpl. repeat split; lia.
      * intros E. destruct (IH _ E) as (used & -> & H).
        exists (line :: used). split; [reflexivity|].
        destruct r; [|assumption]. simpl. split; [tauto | lia].
    + intros E. destruct (IH _ E) as (used & -> & H).
      exists (line :: used). split; [reflexivity|].
      destruct r; [|assumption]. simpl. split; [tauto | lia].
Qed.

Lemma ask_count_spec lines out r c' :
  ask_count int lines out = (r, c') ->
  exists used,
    lines = used ++ stdin c' /\
    match r with
    | Got n => (1 <= n)%Z /\ 1 <= length used
    | EOFError => stdin c' = []
    end.
Proof.
  revert out. induction lines as [|line rest IH]; intros out; cbn [ask_count].
  - intros [= <- <-]. exists []. auto.
  - destruct (int _) as [n|].
    + destruct (1 <=? n)%Z eqn:Hn.
      * intros [= <- <-]. exists [line]. simpl. repeat split; lia.
      * intros E. destruct (IH _ E) as (used & -> & H).
        exists (line :: used). split; [reflexivity|].
        destruct r; [|assumption]. simpl. split; [tauto | lia].
    + intros E. destruct (IH _ E) as (used & -> & H).
      exists (line :: used). split; [reflexivity|].
      destruct r; [|assumption]. simpl. split; [tauto | lia].
Qed.

(** What a run of [get_user_input] read and what it returns. *)
Lemma get_user_input_facts c r c' :
  get_user_input int c = (r, c') ->
  exists used,
    stdin c = used ++ stdin c' /\
    match r with
    | Got prefs =>
        valid (main_kwargs prefs) /\ (1 <= pref_count prefs)%Z /\
        match pref_filename prefs with
        | None => pref_save_to_file prefs = false /\ 7 <= length used
        | Some name =>
            pref_save_to_file prefs = true /\ name <> [] /\ 8 <= length used
        end
    | EOFError => stdin c' = []
    end.
Proof.
  unfold get_user_input.
  destruct (ask_length _ _ _) as [[n|] c1] eqn:E1;
    apply ask_length_spec in E1 as (u1 & H1 & G1);
    [destruct G1 as [Hn Hu1] | intros [= <- <-]; eauto].
  destruct (ask_unless_n _ _) as [[b1|] c2] eqn:E2;
    apply ask_unless_n_spec in E2; cbn [stdin] in E2;
    [destruct E2 as [l2 H2] | destruct E2 as [H2 G2]; intros [= <- <-];
                              exists u1; rewrite G2, <- H2; auto].
  destruct (ask_unless_n _ c2) as [[b2|] c3] eqn:E3;
    apply ask_unless_n_spec in E3;
    [destruct E3 as [l3 H3] | destruct E3 as [H3 G3]; intros [= <- <-];
                              exists (u1 ++ [l2]);
                              rewrite G3, H1, H2, H3, <- app_assoc; auto].
  destruct (ask_unless_n _ c3) as [[b3|] c4] eqn:E4;
    apply ask_unless_n_spec in E4;
    [destruct E4 as [l4 H4] | destruct E4 as [H4 G4]; intros [= <- <-];
                              exists (u1 ++ [l2; l3]);
                              rewrite G4, H1, H2, H3, H4, <- app_assoc; auto].
  destruct (ask_unless_n _ c4) as [[b4|] c5] eqn:E5;
    apply ask_unless_n_spec in E5;
    [destruct E5 as [l5 H5] | destruct E5 as [H5 G5]; intros [= <- <-];
                              exists (u1 ++ [l2; l3; l4]);
                              rewrite G5, H1, H2, H3, H4, H5, <- app_assoc;
                              auto].
  set (chosen := if b1 || b2 || b3 || b4 then _ else _).
  assert (Hch : exists f1 f2 f3 f4 o,
             chosen = (f1, f2, f3, f4, Console (stdin c5) o) /\
             f1 || f2 || f3 || f4 = true).
  { subst chosen. destruct (b1 || b2 || b3 || b4) eqn:Hb.
    - exists b1, b2, b3, b4, (stdout c5). now destruct c5.
    - do 5 eexists. split; reflexivity. }
  destruct Hch as (f1 & f2 & f3 & f4 & o & -> & Hf). cbn [stdin stdout].
  assert (H15 : stdin c = (u1 ++ [l2; l3; l4; l5]) ++ stdin c5).
  { rewrite H1, H2, H3, H4, H5, <- app_assoc. reflexivity. }
  clear H1 H2 H3 H4 H5.
  destruct (ask_count _ _ _) as [[k|] c6] eqn:E6;
    apply ask_count_spec in E6 as (u6 & H6 & G6);
    [destruct G6 as [Hk Hu6] | intros [= <- <-];
                               exists ((u1 ++ [l2; l3; l4; l5]) ++ u6);
                               split; [|exact G6];
                               rewrite H15, H6, app_assoc; reflexivity].
  destruct (input _ c6) as [[l7|] c7] eqn:E7; apply input_spec in E7;
    [ | destruct E7 as [H7 G7]; intros [= <- <-];
        exists ((u1 ++ [l2; l3; l4; l5]) ++ u6);
        split; [|exact G7];
        rewrite H15, H6, H7, G7, app_assoc; reflexivity].
  assert (H17 : stdin c = ((u1 ++ [l2; l3; l4; l5]) ++ u6 ++ [l7]) ++ stdin c7).
  { rewrite H15, H6, E7, <- !app_assoc. reflexivity. }
  assert (L17 : 7 <= length ((u1 ++ [l2; l3; l4; l5]) ++ u6 ++ [l7])).
  { rewrite !length_app. simpl. lia. }
  clear H15 H6 E7.
  destruct (bool_decide (lower l7 = lit "y")) eqn:Hsave.
  - destruct (input _ c7) as [[l8|] c8] eqn:E8; apply input_spec in E8;
      [ | destruct E8 as [H8 G8]; intros [= <- <-]; eexists;
          rewrite G8, app_nil_r, H17, H8, app_nil_r; auto].
    intros [= <- <-].
    exists (((u1 ++ [l2; l3; l4; l5]) ++ u6 ++ [l7]) ++ [l8]).
    split; [rewrite H17, E8, <- !app_assoc; reflexivity|].
    cbn [pref_count pref_filename pref_save_to_file].
    split; [split; [exact Hn | exact Hf]|]. split; [exact Hk|].
    split; [reflexivity|]. split.
    + destruct (strip l8); discriminate.
    + rewrite length_app. simpl. lia.
  - intros [= <- <-]. eexists. split; [exact H17|].
    cbn [pref_count pref_filename pref_save_to_file].
    split; [split; [exact Hn | exact Hf]|]. split; [exact Hk|].
    split; [reflexivity | exact L17].
Qed.

Lemma input_reads_alike prompt c1 c2 :
  stdin c1 = stdin c2 -> reads_alike (input prompt c1) (input prompt c2).
Proof.
  unfold input. intros ->. destruct (stdin c2); now split.
Qed.

Lemma ask_unless_n_reads_alike prompt c1 c2 :
  stdin c1 = stdin c2 ->
  reads_alike (ask_unless_n prompt c1) (ask_unless_n prompt c2).
Proof.
  unfold ask_unless_n, input. intros ->. destruct (stdin c2); now split.
Qed.

Lemma ask_length_reads_alike lines out1 out2 :
  reads_alike (ask_length int lines out1) (ask_length int lines out2).
Proof.
  revert out1 out2.
  induction lines as [|line rest IH]; intros out1 out2; cbn [ask_length];
    [now split|].
  destruct (int line) as [n|]; [destruct (4 <=? n)%Z|];
    (apply IH || now split).
Qed.

Lemma ask_count_reads_alike lines out1 out2 :
  reads_alike (ask_count int lines out1) (ask_count int lines out2).
Proof.
  revert out1 out2.
  induction lines as [|line rest IH]; intros out1 out2; cbn [ask_count];
    [now split|].
  destruct (int _) as [n|]; [destruct (1 <=? n)%Z|];
    (apply IH || now split).
Qed.

(** From the length question on, the answers decide the result: what was
    printed before does not. *)
Lemma get_user_input_after_length c1 c2 :
  reads_alike (ask_length int (stdin c1) (banner (stdout c1)))
              (ask_length int (stdin c2) (banner (stdout c2))) ->
  reads_alike (get_user_input int c1) (get_user_input int c2).
Proof.
  unfold banner. intros [Hr Hs]. unfold get_user_input.
  destruct (ask_length int (stdin c1) _) as [[n|] a1];
    destruct (ask_length int (stdin c2) _) as [[n'|] b1];
    cbn [fst snd] in Hr, Hs; try discriminate Hr; [|now split].
  injection Hr as <-.
  repeat
    match goal with
    | |- reads_alike (match ask_unless_n ?p ?x with _ => _ end)
                     (match ask_unless_n ?p ?y with _ => _ end) =>
        let Hr := fresh "Hr" in
        let Hs' := fresh "Hs" in
        pose proof (ask_unless_n_reads_alike p x y ltac:(cbn [stdin]; congruence))
          as [Hr Hs'];
        destruct (ask_unless_n p x) as [[?|] ?];
        destruct (ask_unless_n p y) as [[?|] ?];
        cbn [fst snd] in Hr, Hs'; try discriminate Hr;
        [injection Hr as <- | now split]
    end.
  match goal with
  | |- context [if ?x || ?y || ?z || ?w then _ else _] =>
      destruct (x || y || z || w)
  end;
    (cbv beta iota zeta; cbn [stdin stdout];
     match goal with
     | |- reads_alike (match ask_count _ ?l1 ?o1 with _ => _ end)
                      (match ask_count _ ?l2 ?o2 with _ => _ end) =>
         replace l1 with l2 by congruence
     end;
     match goal with
     | |- reads_alike (match ask_count _ ?l ?o1 with _ => _ end)
                      (match ask_count _ ?l ?o2 with _ => _ end) =>
         let Hr := fresh "Hr" in
         let Hs' := fresh "Hs" in
         pose proof (ask_count_reads_alike l o1 o2) as [Hr Hs'];
         destruct (ask_count int l o1) as [[k|] a6];
         destruct (ask_count int l o2) as [[k'|] b6];
         cbn [fst snd] in Hr, Hs'; try discriminate Hr;
         [injection Hr as <- | now split]
     end;
     match goal with
     | |- reads_alike (match input ?p ?x with _ => _ end)
                      (match input ?p ?y with _ => _ end) =>
         let Hr := fresh "Hr" in
         let Hs' := fresh "Hs" in
         pose proof (input_reads_alike p x y ltac:(assumption)) as [Hr Hs'];
         destruct (input p x) as [[l7|] a7];
         destruct (input p y) as [[l7'|] b7];
         cbn [fst snd] in Hr, Hs'; try discriminate Hr;
         [injection Hr as <- | now split]
     end;
     destruct (bool_decide (lower l7 = lit "y")); [|now split];
     match goal with
     | |- reads_alike (match input ?p ?x with _ => _ end)
                      (match input ?p ?y with _ => _ end) =>
         let Hr := fresh "Hr" in
         let Hs' := fresh "Hs" in
         pose proof (input_reads_alike p x y ltac:(assumption)) as [Hr Hs'];
         destruct (input p x) as [[l8|] a8];
         destruct (input p y) as [[l8'|] b8];
         cbn [fst snd] in Hr, Hs'; try discriminate Hr;
         [injection Hr as <- | now split]
     end;
     now split).
Qed.

Lemma ask_length_skips bad lines out :
  Forall (rejected_length int) bad ->
  exists out', ask_length int (bad ++ lines) out = ask_length int lines out'.
Proof.
  intros Hbad. revert out.
  induction Hbad as [|line bad Hline _ IH]; intros out; [now exists out|].
  cbn [app ask_length]. unfold rejected_length in Hline.
  destruct (int line) as [n|].
  - rewrite (proj2 (Z.leb_gt _ _) Hline). apply IH.
  - apply IH.
Qed.

End Console_facts.

(** ** What [get_user_input] returns *)



(** X11: [get_user_input] reads the lines of the input in order and never
    looks at a line it does not use: what it leaves is a tail of what it
    found. It returns after at least 7 lines (8 with a file name), and ends
    in [EOFError] only with the input used up, as it always does on fewer
    than 7 lines. *)
Theorem get_user_input_reads_in_order int c r c' :
  get_user_input int c = (r, c') ->
  (exists used,
      stdin c = used ++ stdin c' /\
      match r with
      | Got prefs =>
          (if pref_save_to_file prefs then 8 else 7) <= length used
      | EOFError => stdin c' = []
      end) /\
  (length (stdin c) < 7 -> r = EOFError).
Proof.
  intros E.
  destruct (get_user_input_facts int c r c' E) as (used & Hused & H).
  split.
  - exists used. split; [exact Hused|].
    destruct r as [prefs|]; [|exact H].
    destruct H as (_ & _ & H).
    destruct (pref_filename prefs); [destruct H as (-> & _ & H)
                                    | destruct H as (-> & H)]; lia.
  - intros Hshort. destruct r as [prefs|]; [exfalso | reflexivity].
    destruct H as (_ & _ & H).
    apply (f_equal length) in Hused. rewrite length_app in Hused.
    destruct (pref_filename prefs); [destruct H as (_ & _ & H)
                                    | destruct H as (_ & H)]; lia.
Qed.

Lemma get_user_input_reads_in_order_witness :
  (exists used,
      stdin sample_console = used ++ [lit "more"] /\
      (if pref_save_to_file sample_preferences then 8 else 7)
      <= length used) /\
  (length (stdin sample_console) < 7 -> Got sample_preferences = EOFError).
Proof.
  apply (get_user_input_reads_in_order digits_int sample_console
           (Got sample_preferences)
           (snd (get_user_input digits_int sample_console))).
  vm_compute. reflexivity.
Defined.

(** X12: the preferences [get_user_input] returns never make
    [generate_multiple_passwords], called as [main] calls it, raise
    [ValueError]: the batch ends in passwords or at the recursion limit. *)
Theorem preferences_pass_the_parameter_checks int c prefs c' depth g :
  get_user_input int c = (Got prefs, c') ->
  (exists ps,
      fst (generate_multiple_passwords depth (pref_count prefs)
             (main_kwargs prefs) g) = Ok ps) \/
  fst (generate_multiple_passwords depth (pref_count prefs)
         (main_kwargs prefs) g) = Raise RecursionError.
Proof.
  intros E.
  destruct (get_user_input_facts int c _ c' E)
    as (used & _ & Hv & Hcount & _).
  now apply batch_valid_result.
Qed.

Lemma preferences_pass_the_parameter_checks_witness :
  (exists ps,
      fst (generate_multiple_passwords 3 (pref_count sample_preferences)
             (main_kwargs sample_preferences) ramp) = Ok ps) \/
  fst (generate_multiple_passwords 3 (pref_count sample_preferences)
         (main_kwargs sample_preferences) ramp) = Raise RecursionError.
Proof.
  apply (preferences_pass_the_parameter_checks digits_int sample_console
           sample_preferences
           (snd (get_user_input digits_int sample_console))).
  vm_compute. reflexivity.
Defined.

(** X13: answers to the length question that are no number or are below 4
    are passed over: after any number of them [get_user_input] returns the
    same preferences, and leaves the same input, as without them. *)
Theorem rejected_lengths_are_passed_over int bad lines out :
  Forall (rejected_length int) bad ->
  reads_alike (get_user_input int (Console (bad ++ lines) out))
              (get_user_input int (Console lines out)).
Proof.
  intros Hbad. apply get_user_input_after_length. cbn [stdin stdout].
  destruct (ask_length_skips int bad lines (banner out) Hbad) as [out' ->].
  apply ask_length_reads_alike.
Qed.

Lemma rejected_lengths_are_passed_over_witness :
  reads_alike
    (get_user_input digits_int
       (Console ([lit "abc"; lit "3"] ++ skipn 2 (stdin sample_console)) []))
    (get_user_input digits_int
       (Console (skipn 2 (stdin sample_console)) [])).
Proof.
  apply (rejected_lengths_are_passed_over digits_int).
  repeat constructor.
Defined.
